(** * Verification of the vayu reactor core: buffer.c, socket.c, server.c

    Shallow embedding of the buffer abstraction, the socket I/O
    primitives and the socket registry / event loop of the vayu TCP
    server.  size_t quantities are modelled as [N]; descriptors as [Z].
    The kernel, the allocator and the installed event handler are
    parameters of the model. *)

From Stdlib Require Import ZArith NArith List Bool Lia.
From stdpp Require Import base gmap sets list.
Import ListNotations.

Open Scope Z_scope.

(** ** Constants of server.h *)

(** [#define SOCKET_MAX FD_SETSIZE] (1024 on the targeted platforms). *)
Definition SOCKET_MAX : Z := 1024.

(** [#define INVALID_SOCKET (-1)] *)
Definition INVALID_SOCKET : Z := -1.

(** [#define IO_BUF_SIZE (1024)] *)
Definition IO_BUF_SIZE : N := 1024.

(** ** buffer.c *)

(** [buf_t]: a storage pointer (NULL is [None]), the bytes stored at it
    (the first [len] bytes of the block), the length and the capacity. *)
Record buf_t := mkBuf {
  data : option Z;
  bytes : list Byte.byte;
  len : N;
  size : N
}.

(** The empty buffer: a zero-initialised [buf_t] / the result of [_resetBuf]. *)
Definition emptyBuf : buf_t := mkBuf None [] 0%N 0%N.

(** [_alignBufSize(s)] *)
Definition _alignBufSize (s : N) : N :=
  (s - s mod IO_BUF_SIZE) + (if (0 <? s mod IO_BUF_SIZE)%N then IO_BUF_SIZE else 0%N).

(** [SIZE_MAX] of a 64-bit [size_t]. *)
Definition SIZE_MAX : N := (2 ^ 64 - 1)%N.

(** The macro [_alignBufSize(s)] evaluated in [size_t] arithmetic: the
    subtraction cannot wrap, the final addition wraps modulo [2^64].
    [_alignBufSize] above is the same expression without the wrap, as
    [bufAppend] uses it on sizes of blocks that exist in memory. *)
Definition _alignBufSize_size_t (s : N) : N :=
  ((s - s mod IO_BUF_SIZE) + (if (0 <? s mod IO_BUF_SIZE)%N then IO_BUF_SIZE else 0%N))
    mod (2 ^ 64).

(** The allocator hook [bufAlloc_t]: realloc-style, given the old block
    (or NULL) and the new size it returns a new block or NULL. *)
Definition bufAlloc_t := option Z -> N -> option Z.

(** [bufAppend(buf, data, len)] with [_alloc = alloc]; [data] is never
    NULL at the call sites, so the guard [data != NULL && len > 0] is
    the test [len > 0].  Returns the C result (1 = [true]) and the
    buffer afterwards. *)
Definition bufAppend (alloc : bufAlloc_t) (buf : buf_t) (d : list Byte.byte)
  : bool * buf_t :=
  let l := N.of_nat (length d) in
  if (0 <? l)%N then
    let newLen := (len buf + l)%N in
    let newSize := _alignBufSize newLen in
    if (size buf <? newSize)%N then
      match alloc (data buf) newSize with
      | None => (false, buf)
      | Some p => (true, mkBuf (Some p) (bytes buf ++ d) newLen newSize)
      end
    else (true, mkBuf (data buf) (bytes buf ++ d) newLen (size buf))
  else (true, buf).

(** [bufExtract(buf, lenDest)]: [lenDest] is the value of the out
    parameter before the call; returns the pointer, the bytes stored at
    it, the out parameter afterwards and the buffer afterwards. *)
Definition bufExtract (buf : buf_t) (lenDest : N)
  : option Z * list Byte.byte * N * buf_t :=
  let d := data buf in
  let lenDest' := len buf in
  (d, bytes buf, lenDest', emptyBuf).

(** [bufHasData(buf)] *)
Definition bufHasData (buf : buf_t) : bool :=
  match data buf with
  | Some _ => (0 <? len buf)%N
  | None => false
  end.

(** [bufClear(buf)] *)
Definition bufClear (buf : buf_t) : buf_t := emptyBuf.

(** [bufPeek(buf, lenDest)]: the pointer, the bytes stored at it and the
    out parameter afterwards; the buffer itself is not written. *)
Definition bufPeek (buf : buf_t) (lenDest : N) : option Z * list Byte.byte * N :=
  (data buf, bytes buf, len buf).

(** [bufSetAlloc(alloc)]: the allocator in use afterwards, given the one
    in use before ([cur]) and the argument ([None] is NULL). *)
Definition bufSetAlloc (cur : bufAlloc_t) (alloc : option bufAlloc_t) : bufAlloc_t :=
  match alloc with
  | Some a => a
  | None => cur
  end.

(** The shape every reachable buffer has: NULL storage iff capacity 0,
    the stored bytes are [len] many, [len <= size], and storage is only
    held while there are bytes. *)
Definition buf_inv (b : buf_t) : Prop :=
  (data b = None <-> size b = 0%N) /\
  N.of_nat (length (bytes b)) = len b /\
  (len b <= size b)%N /\
  (data b = None <-> len b = 0%N).

(** ** socket.c *)

(** The kernel side of one client descriptor: the bytes queued for
    reading and whether [recv] fails with an error.  An empty queue on a
    descriptor reported readable is end of file. *)
Record ksock := mkKsock { kq : list Byte.byte; kerr : bool }.

(** [recv(fd, tmpBuf, n, MSG_PEEK)]: returns the count and the bytes,
    leaves the queue alone. *)
Definition recv_peek (k : ksock) (n : nat) : Z * list Byte.byte :=
  if kerr k then (-1, [])
  else let b := firstn n (kq k) in (Z.of_nat (length b), b).

(** [recv(fd, tmpBuf, n, 0)]: removes the first [n] queued bytes. *)
Definition recv_consume (k : ksock) (n : nat) : ksock :=
  mkKsock (skipn n (kq k)) (kerr k).

(** [socketRead(fd, buf)]: returns the C result (1 = [true]), the
    kernel state of [fd] and the input buffer afterwards. *)
Definition socketRead (alloc : bufAlloc_t) (k : ksock) (buf : buf_t)
  : bool * ksock * buf_t :=
  let '(bytesRead, tmpBuf) := recv_peek k (N.to_nat IO_BUF_SIZE) in
  if 0 <? bytesRead then
    let '(ok, buf') := bufAppend alloc buf tmpBuf in
    if ok then (true, recv_consume k (Z.to_nat bytesRead), buf')
    else (false, k, buf')
  else (false, k, buf).

(** What [send] can return for a block of [l] bytes: -1 or a count in
    [0, l].  The kernel's answer [r] is clipped into that range. *)
Definition send_result (r : Z) (l : N) : Z :=
  if r <? 0 then -1 else Z.min r (Z.of_N l).

(** [socketWrite(fd, buf)] where the kernel answers [send] with [r]:
    returns the C result (1 = [true]) and the output buffer afterwards. *)
Definition socketWrite (alloc : bufAlloc_t) (r : Z) (buf : buf_t) : bool * buf_t :=
  if bufHasData buf then
    let '(_, dat, l, buf1) := bufExtract buf 0%N in
    let bw := send_result r l in
    let bytesWritten := if bw <? 0 then 0 else bw in
    let buf2 :=
      if (Z.to_N bytesWritten <? l)%N then
        snd (bufAppend alloc buf1 (skipn (Z.to_nat bytesWritten) dat))
      else buf1 in
    (negb (bytesWritten =? 0), buf2)
  else (true, buf).

(** One record of the [getaddrinfo] list, seen through what [socket]
    answers for it (a descriptor, negative on error) and whether [bind]
    succeeds on it. *)
Record addrCand := mkCand { cand_socket : Z; cand_bind : bool }.

(** The loop of [socketOpenServer] over the [getaddrinfo] list: the
    descriptor of the record where it stops ([None] when [curInfo]
    reaches NULL) and the descriptors passed to [close] on the way. *)
Fixpoint openServerLoop (l : list addrCand) (cl : list Z) : option Z * list Z :=
  match l with
  | [] => (None, cl)
  | c :: rest =>
      let fd := cand_socket c in
      if fd <? 0 then openServerLoop rest cl
      else if cand_bind c then (Some fd, cl)
      else openServerLoop rest (cl ++ [fd])
  end.

(** [socketOpenServer(host, port)] given the outcome of [getaddrinfo]
    ([None] on error) and whether [listen] succeeds: the result and the
    descriptors passed to [close]. *)
Definition socketOpenServer (gai : option (list addrCand)) (listenOk : bool) : Z * list Z :=
  match gai with
  | None => (INVALID_SOCKET, [])
  | Some l =>
      match openServerLoop l [] with
      | (Some fd, cl) => if listenOk then (fd, cl) else (INVALID_SOCKET, cl ++ [fd])
      | (None, cl) => (INVALID_SOCKET, cl)
      end
  end.

(** ** server.c *)

(** [_socket_t] *)
Record sock_t := mkSock {
  iBuf : buf_t;
  oBuf : buf_t;
  keepAlive : bool;
  isServer : bool
}.

(** A zero-initialised record ([memset] in [serverPrepare]). *)
Definition zeroSock : sock_t := mkSock emptyBuf emptyBuf false false.

(** [event_t] *)
Inductive event_t :=
| EVENT_START | EVENT_STOP | EVENT_IDLE
| EVENT_SOCKET_ACCEPT | EVENT_SOCKET_READ | EVENT_SOCKET_WRITE
| EVENT_SOCKET_CLOSE.

(** [eventContext_t]; [ctxBufs] says whether [iBuf]/[oBuf] point to the
    buffers of [cFd] ([true]) or are NULL. *)
Record eventContext_t := mkCtx {
  event : event_t;
  sFd : Z;
  cFd : Z;
  ctxBufs : bool
}.

(** The process-wide state of server.c together with what the model
    observes of the outside: the kernel receive queues, the contexts the
    callback was invoked with, and the descriptors passed to
    [socketClose]. *)
Record server := mkServer {
  sockets : Z -> sock_t;          (* _sockets *)
  readSet : gset Z;               (* _socketReadSet *)
  writeSet : gset Z;              (* _socketWriteSet *)
  highestSocket : Z;              (* _highestSocket *)
  callbackSet : bool;             (* _callback != NULL *)
  kernel : Z -> ksock;
  events : list eventContext_t;
  closed : list Z
}.

Definition set_sockets (w : server) (f : Z -> sock_t) : server :=
  mkServer f (readSet w) (writeSet w) (highestSocket w) (callbackSet w)
    (kernel w) (events w) (closed w).
Definition set_readSet (w : server) (s : gset Z) : server :=
  mkServer (sockets w) s (writeSet w) (highestSocket w) (callbackSet w)
    (kernel w) (events w) (closed w).
Definition set_writeSet (w : server) (s : gset Z) : server :=
  mkServer (sockets w) (readSet w) s (highestSocket w) (callbackSet w)
    (kernel w) (events w) (closed w).
Definition set_highest (w : server) (h : Z) : server :=
  mkServer (sockets w) (readSet w) (writeSet w) h (callbackSet w)
    (kernel w) (events w) (closed w).
Definition set_kernel (w : server) (k : Z -> ksock) : server :=
  mkServer (sockets w) (readSet w) (writeSet w) (highestSocket w) (callbackSet w)
    k (events w) (closed w).
Definition set_events (w : server) (e : list eventContext_t) : server :=
  mkServer (sockets w) (readSet w) (writeSet w) (highestSocket w) (callbackSet w)
    (kernel w) e (closed w).
Definition set_closed (w : server) (c : list Z) : server :=
  mkServer (sockets w) (readSet w) (writeSet w) (highestSocket w) (callbackSet w)
    (kernel w) (events w) c.

(** [_sockets[fd] = s] *)
Definition upd_sock (w : server) (fd : Z) (s : sock_t) : server :=
  set_sockets w (fun i => if Z.eqb i fd then s else sockets w i).

(** [socketClose(fd)] *)
Definition socketClose (fd : Z) (w : server) : server :=
  set_closed w (closed w ++ [fd]).

(** What the installed handler can do through the API it is given:
    operate on the input or output buffer of its context, and call
    [serverCloseSocket] or [serverAddServerSocket] (the latter with the
    descriptor [socketOpenServer] returned). *)
Inductive bufOp := OpAppend (d : list Byte.byte) | OpExtract | OpClear.
Inductive action :=
| ActIBuf (op : bufOp)
| ActOBuf (op : bufOp)
| ActCloseSocket (fd : Z)
| ActAddServerSocket (fd : Z).

Definition applyBufOp (alloc : bufAlloc_t) (op : bufOp) (b : buf_t) : buf_t :=
  match op with
  | OpAppend d => snd (bufAppend alloc b d)
  | OpExtract => let '(_, _, _, b') := bufExtract b 0%N in b'
  | OpClear => bufClear b
  end.

(** [_isValidSocket(fd)] *)
Definition _isValidSocket (fd : Z) : bool :=
  (INVALID_SOCKET <? fd) && (fd <? SOCKET_MAX).

(** [_addSocket(fd)] *)
Definition _addSocket (fd : Z) (w : server) : bool * server :=
  if _isValidSocket fd then
    let s := sockets w fd in
    let w1 := upd_sock w fd (mkSock (bufClear (iBuf s)) (bufClear (oBuf s)) true false) in
    let w2 := set_readSet w1 ({[fd]} ∪ readSet w1) in
    let w3 := if highestSocket w2 <? fd then set_highest w2 fd else w2 in
    (true, w3)
  else (false, w).

(** The loop of [_findHighestSocket] from [i] downwards. *)
Fixpoint findHighestFrom (fuel : nat) (i : Z) (rs : gset Z) : Z :=
  match fuel with
  | O => INVALID_SOCKET
  | S f =>
      if i <? 0 then INVALID_SOCKET
      else if bool_decide (i ∈ rs) then i
      else findHighestFrom f (i - 1) rs
  end.

(** [_findHighestSocket()]: [for(i=_highestSocket-1;i>=0;--i)], which
    runs [_highestSocket] times. *)
Definition _findHighestSocket (w : server) : Z :=
  findHighestFrom (Z.to_nat (highestSocket w)) (highestSocket w - 1) (readSet w).

(** [_enableSocketWrite(fd)] / [_disableSocketWrite(fd)] *)
Definition _enableSocketWrite (fd : Z) (w : server) : server :=
  set_writeSet w ({[fd]} ∪ writeSet w).
Definition _disableSocketWrite (fd : Z) (w : server) : server :=
  set_writeSet w (writeSet w ∖ {[fd]}).

(** [serverCloseSocket(fd)] *)
Definition serverCloseSocket (fd : Z) (w : server) : server :=
  if _isValidSocket fd && negb (isServer (sockets w fd)) then
    let s := sockets w fd in
    _enableSocketWrite fd (upd_sock w fd (mkSock (iBuf s) (oBuf s) false (isServer s)))
  else w.

(** [serverAddServerSocket(host, port)] where [socketOpenServer]
    returned [fd]. *)
Definition serverAddServerSocket (fd : Z) (w : server) : Z * server :=
  let '(ok, w1) := _addSocket fd w in
  if ok then
    let s := sockets w1 fd in
    (fd, upd_sock w1 fd (mkSock (iBuf s) (oBuf s) (keepAlive s) true))
  else if 0 <=? fd then (INVALID_SOCKET, socketClose fd w1)
  else (INVALID_SOCKET, w1).

(** [socketAccept(fd)] given what [accept] did: a new descriptor, no
    connection available ([EAGAIN]), or another error. *)
Inductive accept_res := AcceptOk (fd : Z) | AcceptAgain | AcceptError.

Definition socketAccept (r : accept_res) : Z :=
  match r with
  | AcceptOk n => if 0 <=? n then n else INVALID_SOCKET
  | AcceptAgain => SOCKET_MAX
  | AcceptError => INVALID_SOCKET
  end.

(** The kernel's answers during one [serverExec]: the outcome of
    [select] (ready sets when the result is positive, 0, or -1 with
    [errno] EINTR or another error), what [accept] does on each listening
    descriptor and what [send] answers on each descriptor. *)
Inductive select_res :=
| SelReady (rs ws : gset Z) | SelTimeout | SelIntr | SelError.

Record exec_oracle := mkOracle {
  o_select : select_res;
  o_accept : Z -> accept_res;
  o_send : Z -> Z
}.

(** [serverSetCallback(callback)]: [set] says whether [callback] is
    non-NULL (the installed callback is the handler of the model). *)
Definition serverSetCallback (set : bool) (w : server) : server :=
  mkServer (sockets w) (readSet w) (writeSet w) (highestSocket w) set
    (kernel w) (events w) (closed w).

Section Reactor.

(** The allocator installed with [bufSetAlloc] and the installed
    callback, seen through the actions it takes on a context and the
    state it observes. *)
Variable alloc : bufAlloc_t.
Variable handler : eventContext_t -> server -> list action.

Definition runAction (ctx : eventContext_t) (w : server) (a : action) : server :=
  match a with
  | ActIBuf op =>
      if ctxBufs ctx then
        let s := sockets w (cFd ctx) in
        upd_sock w (cFd ctx) (mkSock (applyBufOp alloc op (iBuf s)) (oBuf s) (keepAlive s) (isServer s))
      else w
  | ActOBuf op =>
      if ctxBufs ctx then
        let s := sockets w (cFd ctx) in
        upd_sock w (cFd ctx) (mkSock (iBuf s) (applyBufOp alloc op (oBuf s)) (keepAlive s) (isServer s))
      else w
  | ActCloseSocket fd => serverCloseSocket fd w
  | ActAddServerSocket fd => snd (serverAddServerSocket fd w)
  end.

(** [_invokeCallback(event, sFd, cFd, iBuf, oBuf)] *)
Definition _invokeCallback (ev : event_t) (s c : Z) (bufs : bool) (w : server) : server :=
  if callbackSet w then
    let ctx := mkCtx ev s c bufs in
    let w1 := set_events w (events w ++ [ctx]) in
    fold_left (runAction ctx) (handler ctx w1) w1
  else w.

(** [_removeSocket(fd)] *)
Definition _removeSocket (fd : Z) (w : server) : server :=
  let w1 :=
    if isServer (sockets w fd)
    then _invokeCallback EVENT_SOCKET_CLOSE fd INVALID_SOCKET false w
    else _invokeCallback EVENT_SOCKET_CLOSE INVALID_SOCKET fd false w in
  let s := sockets w1 fd in
  let w2 := upd_sock w1 fd (mkSock (bufClear (iBuf s)) (bufClear (oBuf s)) false false) in
  let w3 := set_writeSet (set_readSet w2 (readSet w2 ∖ {[fd]})) (writeSet w2 ∖ {[fd]}) in
  let w4 := if Z.eqb fd (highestSocket w3) then set_highest w3 (_findHighestSocket w3) else w3 in
  socketClose fd w4.

(** [_checkClientSocket(cFd)] *)
Definition _checkClientSocket (c : Z) (w : server) : server :=
  if bufHasData (oBuf (sockets w c)) then _enableSocketWrite c w
  else if negb (keepAlive (sockets w c)) then _removeSocket c w
  else w.

(** [_handleServerInput(sFd)] *)
Definition _handleServerInput (r : accept_res) (sfd : Z) (w : server) : server :=
  let c := socketAccept r in
  if 0 <=? c then
    let '(ok, w1) := _addSocket c w in
    if ok then _checkClientSocket c (_invokeCallback EVENT_SOCKET_ACCEPT sfd c true w1)
    else socketClose c w1
  else _removeSocket sfd w.

(** [_handleClientInput(cFd)] *)
Definition _handleClientInput (c : Z) (w : server) : server :=
  let s := sockets w c in
  let '(ok, k', ib) := socketRead alloc (kernel w c) (iBuf s) in
  let w1 := upd_sock (set_kernel w (fun i => if Z.eqb i c then k' else kernel w i)) c
              (mkSock ib (oBuf s) (keepAlive s) (isServer s)) in
  if ok then _checkClientSocket c (_invokeCallback EVENT_SOCKET_READ INVALID_SOCKET c true w1)
  else _removeSocket c w1.

(** [_handleInput(fd)] *)
Definition _handleInput (r : accept_res) (fd : Z) (w : server) : server :=
  if isServer (sockets w fd) then _handleServerInput r fd w
  else _handleClientInput fd w.

(** [_handleOutput(cFd)] where [send] answers [r] *)
Definition _handleOutput (r : Z) (c : Z) (w : server) : server :=
  let s := sockets w c in
  let '(ok, ob) := socketWrite alloc r (oBuf s) in
  let w1 := upd_sock w c (mkSock (iBuf s) ob (keepAlive s) (isServer s)) in
  if ok then
    let w2 := _invokeCallback EVENT_SOCKET_WRITE INVALID_SOCKET c true w1 in
    if negb (bufHasData (oBuf (sockets w2 c))) then
      let w3 := _disableSocketWrite c w2 in
      if negb (keepAlive (sockets w3 c)) then _removeSocket c w3 else w3
    else w2
  else _removeSocket c w1.

(** [serverPrepare()] *)
Definition serverPrepare (w : server) : server :=
  mkServer (fun _ => zeroSock) ∅ ∅ INVALID_SOCKET false (kernel w) (events w) (closed w).

(** The loop [for(fd=0;fd<=_highestSocket;++fd)] of [serverExec];
    [_highestSocket] is re-read at every iteration.  It stays below
    [SOCKET_MAX], so [SOCKET_MAX + 1] rounds of fuel are never
    exhausted. *)
Fixpoint execLoop (o : exec_oracle) (fuel : nat) (fd : Z) (rs ws : gset Z) (w : server)
  : server :=
  match fuel with
  | O => w
  | S f =>
      if fd <=? highestSocket w then
        let w1 := if bool_decide (fd ∈ rs) then _handleInput (o_accept o fd) fd w else w in
        let w2 := if bool_decide (fd ∈ ws) then _handleOutput (o_send o fd) fd w1 else w1 in
        execLoop o f (fd + 1) rs ws w2
      else w
  end.

(** [serverExec()]: the result code and the state afterwards.  The
    ready sets [select] reports are subsets of the interest sets. *)
Definition serverExec (o : exec_oracle) (w : server) : Z * server :=
  if highestSocket w <? 0 then (2, w)
  else
    match o_select o with
    | SelReady rs ws =>
        (1, execLoop o (Z.to_nat SOCKET_MAX + 1) 0 (rs ∩ readSet w) (ws ∩ writeSet w) w)
    | SelTimeout =>
        (1, _invokeCallback EVENT_IDLE INVALID_SOCKET INVALID_SOCKET false w)
    | SelIntr => (1, w)
    | SelError => (0, w)
    end.

(** [serverStart()] *)
Definition serverStart (w : server) : server :=
  _invokeCallback EVENT_START INVALID_SOCKET INVALID_SOCKET false w.

(** The loop [for(fd=0;fd<=_highestSocket;++fd)] of [_removeAllSockets];
    [_highestSocket] is re-read at every iteration. *)
Fixpoint removeAllLoop (fuel : nat) (fd : Z) (w : server) : server :=
  match fuel with
  | O => w
  | S f =>
      if fd <=? highestSocket w then
        let w1 := if bool_decide (fd ∈ readSet w) then _removeSocket fd w else w in
        removeAllLoop f (fd + 1) w1
      else w
  end.

(** [_removeAllSockets()] *)
Definition _removeAllSockets (w : server) : server :=
  removeAllLoop (Z.to_nat SOCKET_MAX + 1) 0 w.

(** [serverStop()] *)
Definition serverStop (w : server) : server :=
  _invokeCallback EVENT_STOP INVALID_SOCKET INVALID_SOCKET false (_removeAllSockets w).

End Reactor.

(** ** The Lua provider: buffer bindings and the callback *)

(** [_luaBufPeek]: nil ([None]) when [bufHasData] is false, otherwise
    the [len] bytes at the pointer [bufPeek] returns. *)
Definition _luaBufPeek (b : buf_t) : option (list Byte.byte) :=
  if bufHasData b then
    let '(_, d, l) := bufPeek b 0%N in Some (take (N.to_nat l) d)
  else None.

(** [_luaBufExtract]: the value pushed and the buffer afterwards. *)
Definition _luaBufExtract (b : buf_t) : option (list Byte.byte) * buf_t :=
  if bufHasData b then
    let '(_, d, l, b') := bufExtract b 0%N in (Some (take (N.to_nat l) d), b')
  else (None, b).

(** [_luaBufAppend]: the boolean pushed and the buffer afterwards. *)
Definition _luaBufAppend (alloc : bufAlloc_t) (b : buf_t) (s : list Byte.byte) : bool * buf_t :=
  bufAppend alloc b s.

(** [_luaCallback(context)] where the Lua function, run on the context,
    takes the API actions [fst] and then raises an error ([snd] true) or
    returns: on an error [serverCloseSocket(context->cFd)] follows. *)
Definition _luaCallback (script : eventContext_t -> server -> list action * bool)
    (ctx : eventContext_t) (w : server) : list action :=
  let '(acts, failed) := script ctx w in
  acts ++ (if failed then [ActCloseSocket (cFd ctx)] else []).

(** ** main.c *)

(** [exitCode_t] *)
Inductive exitCode_t :=
| EXIT_OK | EXIT_ERROR_SERVER | EXIT_ERROR_NO_CONNECTIONS | EXIT_ERROR_PROVIDER.

(** The globals of main.c and the server state. *)
Record mainState := mkMain {
  _exitCode : exitCode_t;
  _restart : bool;
  _active : bool;
  mainServer : server
}.

(** [_termSignalHandler(sigNo)] *)
Definition _termSignalHandler (m : mainState) : mainState :=
  mkMain (_exitCode m) false false (mainServer m).

(** [_restartSignalHandler(sigNo)] *)
Definition _restartSignalHandler (m : mainState) : mainState :=
  mkMain (_exitCode m) true false (mainServer m).

(** The signals [_prepareSignals] installs handlers for. *)
Inductive signal_t := SIGTERM | SIGINT | SIGHUP | SIGUSR1 | SIGUSR2.

(** Delivery of a signal with the handlers of [_prepareSignals]. *)
Definition deliverSignal (m : mainState) (sg : signal_t) : mainState :=
  match sg with
  | SIGTERM | SIGINT | SIGHUP => _termSignalHandler m
  | SIGUSR1 | SIGUSR2 => _restartSignalHandler m
  end.

(** ** Buffer lemmas *)

(** [n] successive [bufAppend] calls that all succeed. *)
Fixpoint bufAppendAll (alloc : bufAlloc_t) (b : buf_t) (chunks : list (list Byte.byte))
  : option buf_t :=
  match chunks with
  | [] => Some b
  | c :: cs =>
      let '(ok, b') := bufAppend alloc b c in
      if ok then bufAppendAll alloc b' cs else None
  end.

Definition okAlloc : bufAlloc_t := fun _ _ => Some 4096.
Definition failAlloc : bufAlloc_t := fun _ _ => None.

Example bufAppend_ex :
  bufAppend okAlloc emptyBuf [Byte.x41; Byte.x42] =
  (true, mkBuf (Some 4096) [Byte.x41; Byte.x42] 2%N 1024%N).
Proof. reflexivity. Qed.

Example alignBufSize_ex :
  _alignBufSize 0 = 0%N /\ _alignBufSize 1 = 1024%N /\
  _alignBufSize 1024 = 1024%N /\ _alignBufSize 1025 = 2048%N.
Proof. repeat split; reflexivity. Qed.

Lemma alignBufSize_ge (s : N) : (s <= _alignBufSize s)%N.
Proof.
  unfold _alignBufSize, IO_BUF_SIZE.
  pose proof (N.mod_lt s 1024 ltac:(lia)).
  pose proof (N.div_mod s 1024 ltac:(lia)).
  destruct (0 <? s mod 1024)%N eqn:E; [apply N.ltb_lt in E | apply N.ltb_ge in E]; lia.
Qed.

Lemma bufAppend_success (alloc : bufAlloc_t) (b b' : buf_t) (d : list Byte.byte) :
  bufAppend alloc b d = (true, b') ->
  bytes b' = bytes b ++ d /\ len b' = (len b + N.of_nat (length d))%N.
Proof.
  unfold bufAppend. intros H.
  destruct (0 <? N.of_nat (length d))%N eqn:E.
  - destruct (size b <? _alignBufSize (len b + N.of_nat (length d)))%N.
    + destruct (alloc (data b) _); inversion H; subst; simpl; auto.
    + inversion H; subst; simpl; auto.
  - inversion H; subst. apply N.ltb_ge in E. destruct d; simpl in *; [|lia].
    rewrite app_nil_r. split; [reflexivity | lia].
Qed.

Lemma bufAppend_failure (alloc : bufAlloc_t) (b b' : buf_t) (d : list Byte.byte) :
  bufAppend alloc b d = (false, b') -> b' = b.
Proof.
  unfold bufAppend. intros H.
  destruct (0 <? N.of_nat (length d))%N; [|discriminate].
  destruct (size b <? _alignBufSize (len b + N.of_nat (length d)))%N; [|discriminate].
  destruct (alloc (data b) _); inversion H; auto.
Qed.

Lemma bufAppend_inv (alloc : bufAlloc_t) (b : buf_t) (d : list Byte.byte) :
  buf_inv b -> buf_inv (snd (bufAppend alloc b d)).
Proof.
  unfold buf_inv, bufAppend. intros (H1 & H2 & H3 & H4).
  destruct (0 <? N.of_nat (length d))%N eqn:E; [apply N.ltb_lt in E|exact (conj H1 (conj H2 (conj H3 H4)))].
  pose proof (alignBufSize_ge (len b + N.of_nat (length d))).
  destruct (size b <? _alignBufSize (len b + N.of_nat (length d)))%N eqn:E2.
  - destruct (alloc (data b) _) eqn:E3; simpl; [|tauto].
    rewrite length_app. repeat split; try discriminate; try lia.
  - apply N.ltb_ge in E2. simpl. rewrite length_app.
    split; [exact H1|]. split; [lia|]. split; [lia|].
    split; intros Hx.
    + apply H1 in Hx. lia.
    + lia.
Qed.

Lemma emptyBuf_inv : buf_inv emptyBuf.
Proof. unfold buf_inv; simpl; repeat split; auto; lia. Qed.

Lemma bufAppendAll_bytes (alloc : bufAlloc_t) (chunks : list (list Byte.byte)) :
  forall b b', bufAppendAll alloc b chunks = Some b' ->
  bytes b' = bytes b ++ concat chunks /\
  len b' = (len b + N.of_nat (length (concat chunks)))%N.
Proof.
  induction chunks as [|c cs IH]; simpl; intros b b' H.
  - inversion H; subst. rewrite app_nil_r. split; [reflexivity | lia].
  - destruct (bufAppend alloc b c) as [ok b1] eqn:E. destruct ok; [|discriminate].
    apply bufAppend_success in E as [E1 E2].
    apply IH in H as [H1 H2]. rewrite H1, E1, H2, E2, app_assoc, length_app. split; [reflexivity | lia].
Qed.

Lemma bufExtract_inv (b : buf_t) (out : N) :
  let '(_, _, _, b') := bufExtract b out in buf_inv b'.
Proof. exact emptyBuf_inv. Qed.

Lemma bufClear_inv (b : buf_t) : buf_inv (bufClear b).
Proof. exact emptyBuf_inv. Qed.

Lemma bufHasData_emptyBuf : bufHasData emptyBuf = false.
Proof. reflexivity. Qed.

(** ** Claims about buffer.c *)

(** C3: if [bufAppend] of a non-empty block fails, it reports failure and
    leaves the buffer (storage pointer, length, capacity and stored
    bytes) exactly as it was, so the same append can be retried. *)
Theorem bufAppend_fail_unchanged (alloc : bufAlloc_t) (b : buf_t) (d : list Byte.byte) :
  d <> [] -> fst (bufAppend alloc b d) = false ->
  snd (bufAppend alloc b d) = b /\
  data (snd (bufAppend alloc b d)) = data b /\
  len (snd (bufAppend alloc b d)) = len b /\
  size (snd (bufAppend alloc b d)) = size b /\
  bytes (snd (bufAppend alloc b d)) = bytes b.
Proof.
  intros _ Hf. destruct (bufAppend alloc b d) as [ok b'] eqn:E. simpl in *. subst ok.
  apply bufAppend_failure in E. subst b'. repeat split.
Qed.

Lemma bufAppend_fail_unchanged_witness :
  let b := mkBuf (Some 7) [Byte.x41] 1%N 1024%N in
  let d := repeat Byte.x42 1024 in
  d <> [] /\ fst (bufAppend failAlloc b d) = false /\
  snd (bufAppend failAlloc b d) = b.
Proof.
  simpl. split; [discriminate|]. split; [reflexivity|].
  apply (bufAppend_fail_unchanged failAlloc (mkBuf (Some 7) [Byte.x41] 1%N 1024%N)
           (repeat Byte.x42 1024)); [discriminate | reflexivity].
Defined.

(** C7: after any sequence of successful appends on an empty buffer, one
    [bufExtract] returns the concatenation of the chunks and its length,
    and leaves the buffer empty (no storage, length 0, capacity 0) with
    [bufHasData] false. *)
Theorem bufExtract_roundtrip (alloc : bufAlloc_t) (chunks : list (list Byte.byte))
    (b : buf_t) (out : N) :
  bufAppendAll alloc emptyBuf chunks = Some b ->
  let '(p, bs, l, b') := bufExtract b out in
  bs = concat chunks /\ l = N.of_nat (length (concat chunks)) /\
  (concat chunks = [] -> p = None) /\
  data b' = None /\ len b' = 0%N /\ size b' = 0%N /\ bufHasData b' = false.
Proof.
  intros H. pose proof (bufAppendAll_bytes alloc chunks emptyBuf b H) as [H1 H2].
  simpl in H1, H2. simpl. split; [exact H1|]. split; [lia|].
  split; [|repeat split].
  intros Hc. rewrite Hc in H2. simpl in H2.
  (* reachable buffers hold storage only while they hold bytes *)
  assert (Hinv : forall cs b0 b1, buf_inv b0 -> bufAppendAll alloc b0 cs = Some b1 -> buf_inv b1).
  { induction cs as [|c cs IH]; simpl; intros b0 b1 Hi Ha.
    - inversion Ha; subst; auto.
    - destruct (bufAppend alloc b0 c) as [ok b2] eqn:E. destruct ok; [|discriminate].
      apply (IH b2); auto. pose proof (bufAppend_inv alloc b0 c Hi) as Hj.
      rewrite E in Hj. exact Hj. }
  pose proof (Hinv chunks emptyBuf b emptyBuf_inv H) as (_ & _ & _ & H4).
  apply H4. exact H2.
Qed.

Lemma bufExtract_roundtrip_witness :
  bufAppendAll okAlloc emptyBuf [[Byte.x41; Byte.x42]; []; [Byte.x43]] =
    Some (mkBuf (Some 4096) [Byte.x41; Byte.x42; Byte.x43] 3%N 1024%N) /\
  (let '(p, bs, l, b') := bufExtract (mkBuf (Some 4096) [Byte.x41; Byte.x42; Byte.x43] 3%N 1024%N) 0%N in
   bs = concat [[Byte.x41; Byte.x42]; []; [Byte.x43]] /\
   l = N.of_nat (length (concat [[Byte.x41; Byte.x42]; []; [Byte.x43]])) /\
   (concat [[Byte.x41; Byte.x42]; []; [Byte.x43]] = [] -> p = None) /\
   data b' = None /\ len b' = 0%N /\ size b' = 0%N /\ bufHasData b' = false).
Proof.
  split; [reflexivity|].
  apply (bufExtract_roundtrip okAlloc [[Byte.x41; Byte.x42]; []; [Byte.x43]]
           (mkBuf (Some 4096) [Byte.x41; Byte.x42; Byte.x43] 3%N 1024%N) 0%N).
  reflexivity.
Defined.

(** C10: [bufExtract] always writes the buffer's length to its out
    parameter, whatever the out parameter held before; on an empty
    (reachable) buffer it returns NULL and writes 0. *)
Theorem bufExtract_writes_len (b : buf_t) (out : N) :
  buf_inv b ->
  let '(p, _, l, _) := bufExtract b out in
  l = len b /\ (len b = 0%N -> p = None /\ l = 0%N).
Proof.
  intros (_ & _ & _ & H4). simpl. split; [reflexivity|].
  intros Hl. split; [apply H4; exact Hl | exact Hl].
Qed.

Lemma bufExtract_writes_len_witness :
  buf_inv emptyBuf /\
  (let '(p, _, l, _) := bufExtract emptyBuf 42%N in
   l = len emptyBuf /\ (len emptyBuf = 0%N -> p = None /\ l = 0%N)).
Proof.
  split; [exact emptyBuf_inv|].
  apply (bufExtract_writes_len emptyBuf 42%N). exact emptyBuf_inv.
Defined.

(** ** Claims about socket.c *)

(** C1: [socketRead] peeks the queued bytes, appends them to the input
    buffer and consumes exactly those bytes from the kernel queue only if
    the append succeeded; when the append fails it reports no data and
    leaves both the kernel queue and the buffer as they were, so the
    next read peeks the same bytes. *)
Theorem socketRead_peek_then_consume (alloc : bufAlloc_t) (k : ksock) (b : buf_t) :
  let peeked := snd (recv_peek k (N.to_nat IO_BUF_SIZE)) in
  let '(ok, k', b') := socketRead alloc k b in
  (ok = true ->
     peeked <> [] /\ bufAppend alloc b peeked = (true, b') /\
     k' = recv_consume k (length peeked) /\ kq k = peeked ++ kq k') /\
  (peeked <> [] -> fst (bufAppend alloc b peeked) = false ->
     ok = false /\ k' = k /\ b' = b /\
     recv_peek k' (N.to_nat IO_BUF_SIZE) = recv_peek k (N.to_nat IO_BUF_SIZE)).
Proof.
  unfold socketRead, recv_peek. simpl.
  destruct (kerr k) eqn:Ek; simpl.
  - split; [discriminate|]. intros Hn. exfalso. apply Hn. reflexivity.
  - set (n := N.to_nat IO_BUF_SIZE). set (p := take n (kq k)).
    destruct (0 <? Z.of_nat (length p)) eqn:Hp.
    + apply Z.ltb_lt in Hp.
      assert (Hne : p <> []) by (intros He; rewrite He in Hp; simpl in Hp; lia).
      destruct (bufAppend alloc b p) as [ok b'] eqn:Ea. destruct ok; simpl.
      * split; [|intros _ Hf; discriminate].
        intros _. rewrite Nat2Z.id. split; [exact Hne|]. split; [reflexivity|].
        split; [reflexivity|]. unfold recv_consume; simpl.
        unfold p. rewrite <- (take_drop n (kq k)) at 1. f_equal.
        rewrite length_take.
        destruct (Nat.le_ge_cases n (length (kq k))).
        -- rewrite Nat.min_l; auto.
        -- rewrite Nat.min_r; auto. rewrite !drop_ge; auto.
      * split; [discriminate|]. intros _ _. apply bufAppend_failure in Ea. subst b'.
        rewrite Ek. auto.
    + apply Z.ltb_ge in Hp. split; [discriminate|].
      intros Hn. exfalso. apply Hn. destruct p; [reflexivity|]. simpl in Hp. lia.
Qed.

Lemma socketRead_peek_then_consume_witness :
  let k := mkKsock [Byte.x41; Byte.x42] false in
  let b := mkBuf (Some 9) (repeat Byte.x30 1023) 1023%N 1024%N in
  socketRead failAlloc k b = (false, k, b) /\
  (let peeked := snd (recv_peek k (N.to_nat IO_BUF_SIZE)) in
   let '(ok, k', b') := socketRead failAlloc k b in
   (ok = true ->
      peeked <> [] /\ bufAppend failAlloc b peeked = (true, b') /\
      k' = recv_consume k (length peeked) /\ kq k = peeked ++ kq k') /\
   (peeked <> [] -> fst (bufAppend failAlloc b peeked) = false ->
      ok = false /\ k' = k /\ b' = b /\
      recv_peek k' (N.to_nat IO_BUF_SIZE) = recv_peek k (N.to_nat IO_BUF_SIZE))).
Proof.
  split; [vm_compute; reflexivity|].
  exact (socketRead_peek_then_consume failAlloc (mkKsock [Byte.x41; Byte.x42] false)
           (mkBuf (Some 9) (repeat Byte.x30 1023) 1023%N 1024%N)).
Defined.

(** ** The registry invariant *)

(** [_highestSocket] is the greatest descriptor of the read set, or
    [INVALID_SOCKET] when the read set is empty; the read set only holds
    descriptors in [0, SOCKET_MAX). *)
Definition hinv (w : server) : Prop :=
  (forall i, i ∈ readSet w -> 0 <= i < SOCKET_MAX) /\
  ((highestSocket w = INVALID_SOCKET /\ readSet w = ∅) \/
   (highestSocket w ∈ readSet w /\ forall i, i ∈ readSet w -> i <= highestSocket w)).

Lemma hinv_ext (w w' : server) :
  readSet w' = readSet w -> highestSocket w' = highestSocket w -> hinv w -> hinv w'.
Proof. unfold hinv. intros -> ->. auto. Qed.

Lemma isValidSocket_spec (fd : Z) : _isValidSocket fd = true <-> 0 <= fd < SOCKET_MAX.
Proof.
  unfold _isValidSocket, INVALID_SOCKET. rewrite andb_true_iff, !Z.ltb_lt. lia.
Qed.

(** A server before any traffic: every record zero, empty sets. *)
Definition initServer : server :=
  mkServer (fun _ => zeroSock) ∅ ∅ INVALID_SOCKET false (fun _ => mkKsock [] false) [] [].

(** ** Claim about serverCloseSocket *)

(** C9: [serverCloseSocket] changes nothing on a listening socket or an
    out-of-range descriptor; on a registered client socket it clears
    [keepAlive], adds the descriptor to the write set, and leaves
    everything else (its buffers and role, the other records, the read
    set, [_highestSocket]) unchanged. *)
Theorem serverCloseSocket_frame (w : server) (fd : Z) :
  ((isServer (sockets w fd) = true \/ fd < 0 \/ SOCKET_MAX <= fd) ->
     serverCloseSocket fd w = w) /\
  (hinv w -> fd ∈ readSet w -> isServer (sockets w fd) = false ->
     let w' := serverCloseSocket fd w in
     keepAlive (sockets w' fd) = false /\
     iBuf (sockets w' fd) = iBuf (sockets w fd) /\
     oBuf (sockets w' fd) = oBuf (sockets w fd) /\
     isServer (sockets w' fd) = isServer (sockets w fd) /\
     (forall i, i <> fd -> sockets w' i = sockets w i) /\
     writeSet w' = {[fd]} ∪ writeSet w /\
     readSet w' = readSet w /\ highestSocket w' = highestSocket w /\
     callbackSet w' = callbackSet w /\ kernel w' = kernel w /\
     events w' = events w /\ closed w' = closed w).
Proof.
  split.
  - intros H. unfold serverCloseSocket.
    destruct (_isValidSocket fd) eqn:Hv; [|reflexivity].
    apply isValidSocket_spec in Hv.
    destruct H as [H | H]; [rewrite H; reflexivity | lia].
  - intros [Hr _] Hin Hs. unfold serverCloseSocket.
    assert (Hv : _isValidSocket fd = true) by (apply isValidSocket_spec; auto).
    rewrite Hv, Hs. simpl. rewrite Z.eqb_refl. simpl.
    repeat split; try reflexivity.
    intros i Hi. destruct (Z.eqb_spec i fd); [contradiction | reflexivity].
Qed.

Definition oneClient : server :=
  set_highest (upd_sock (set_readSet initServer {[5]}) 5 (mkSock emptyBuf emptyBuf true false)) 5.

Lemma oneClient_hinv : hinv oneClient.
Proof.
  unfold hinv; simpl. split.
  - intros i Hi. apply elem_of_singleton in Hi. subst. unfold SOCKET_MAX. lia.
  - right. split; [set_solver|]. intros i Hi. apply elem_of_singleton in Hi. lia.
Qed.

Lemma serverCloseSocket_frame_witness :
  hinv oneClient /\ 5 ∈ readSet oneClient /\ isServer (sockets oneClient 5) = false /\
  keepAlive (sockets (serverCloseSocket 5 oneClient) 5) = false /\
  writeSet (serverCloseSocket 5 oneClient) = {[5]} ∪ writeSet oneClient /\
  serverCloseSocket 2000 oneClient = oneClient.
Proof.
  assert (Hin : 5 ∈ readSet oneClient) by (simpl; set_solver).
  destruct (proj2 (serverCloseSocket_frame oneClient 5) oneClient_hinv Hin eq_refl)
    as (Hk & _ & _ & _ & _ & Hws & _).
  split; [exact oneClient_hinv|]. split; [exact Hin|]. split; [reflexivity|].
  split; [exact Hk|]. split; [exact Hws|].
  apply (proj1 (serverCloseSocket_frame oneClient 2000)).
  right. right. unfold SOCKET_MAX. lia.
Defined.

(** ** Claim about serverExec with no sockets *)

(** C8: with [_highestSocket] at the sentinel, [serverExec] returns 2 and
    leaves the whole state (registry, sets, events, kernel) unchanged,
    whatever [select], [accept] and [send] would have answered. *)
Theorem serverExec_no_connections (alloc : bufAlloc_t)
    (handler : eventContext_t -> server -> list action) (o : exec_oracle) (w : server) :
  highestSocket w = INVALID_SOCKET -> serverExec alloc handler o w = (2, w).
Proof.
  intros H. unfold serverExec. rewrite H. reflexivity.
Qed.

Lemma serverExec_no_connections_witness :
  highestSocket initServer = INVALID_SOCKET /\
  serverExec okAlloc (fun _ _ => []) (mkOracle SelError (fun _ => AcceptError) (fun _ => 0))
    initServer = (2, initServer).
Proof.
  split; [reflexivity|]. apply serverExec_no_connections. reflexivity.
Defined.

(** ** Claim about the accept race *)

(** [socketAccept] maps "no connection available" to [SOCKET_MAX], which
    [_addSocket] rejects, so [_handleServerInput] ends in
    [socketClose(SOCKET_MAX)]. *)
Lemma handleServerInput_again (alloc : bufAlloc_t)
    (handler : eventContext_t -> server -> list action) (sfd : Z) (w : server) :
  _handleServerInput alloc handler AcceptAgain sfd w = socketClose SOCKET_MAX w.
Proof. reflexivity. Qed.

(** C6 (counterexample): on the accept race the code does act on a
    descriptor: it calls [socketClose] on [SOCKET_MAX]. *)
Lemma accept_race_closes_descriptor :
  closed (_handleServerInput okAlloc (fun _ _ => []) AcceptAgain 5
            (upd_sock oneClient 5 (mkSock emptyBuf emptyBuf true true)))
  = [SOCKET_MAX] /\
  closed (upd_sock oneClient 5 (mkSock emptyBuf emptyBuf true true)) = [].
Proof. split; reflexivity. Qed.

(** C6 (amended): when [accept] reports no connection available, no
    event is fired, no record is created or destroyed, the interest sets
    and [_highestSocket] are unchanged; the only effect is a
    [socketClose] on the sentinel [SOCKET_MAX], which is never a
    registered descriptor. *)
Theorem accept_race_benign (alloc : bufAlloc_t)
    (handler : eventContext_t -> server -> list action) (sfd : Z) (w : server) :
  hinv w ->
  let w' := _handleServerInput alloc handler AcceptAgain sfd w in
  events w' = events w /\ sockets w' = sockets w /\
  readSet w' = readSet w /\ writeSet w' = writeSet w /\
  highestSocket w' = highestSocket w /\ kernel w' = kernel w /\
  callbackSet w' = callbackSet w /\
  closed w' = closed w ++ [SOCKET_MAX] /\ SOCKET_MAX ∉ readSet w.
Proof.
  intros [Hr _]. simpl. repeat split; try reflexivity.
  intros Hin. apply Hr in Hin. lia.
Qed.

Lemma accept_race_benign_witness :
  hinv oneClient /\
  closed (_handleServerInput okAlloc (fun _ _ => []) AcceptAgain 5 oneClient) = [SOCKET_MAX].
Proof.
  split; [exact oneClient_hinv|].
  destruct (accept_race_benign okAlloc (fun _ _ => []) 5 oneClient oneClient_hinv)
    as (_ & _ & _ & _ & _ & _ & _ & Hc & _).
  exact Hc.
Defined.

(** ** Frame lemmas for the registry primitives *)

Lemma upd_sock_at (w : server) (fd i : Z) (s : sock_t) :
  sockets (upd_sock w fd s) i = if Z.eqb i fd then s else sockets w i.
Proof. reflexivity. Qed.

Lemma serverCloseSocket_sets (fd : Z) (w : server) :
  readSet (serverCloseSocket fd w) = readSet w /\
  writeSet w ⊆ writeSet (serverCloseSocket fd w).
Proof.
  unfold serverCloseSocket. destruct (_isValidSocket fd && _); simpl; split; set_solver.
Qed.

Lemma serverCloseSocket_sock (fd c : Z) (w : server) :
  let s := sockets w c in
  sockets (serverCloseSocket fd w) c = s \/
  sockets (serverCloseSocket fd w) c = mkSock (iBuf s) (oBuf s) false (isServer s).
Proof.
  unfold serverCloseSocket. destruct (_isValidSocket fd && _); simpl; [|left; reflexivity].
  destruct (Z.eqb_spec c fd); subst; [right | left]; reflexivity.
Qed.

Lemma serverAddServerSocket_other (fd c : Z) (w : server) :
  fd <> c ->
  sockets (snd (serverAddServerSocket fd w)) c = sockets w c /\
  writeSet (snd (serverAddServerSocket fd w)) = writeSet w /\
  readSet w ⊆ readSet (snd (serverAddServerSocket fd w)).
Proof.
  intros Hne. unfold serverAddServerSocket, _addSocket.
  destruct (_isValidSocket fd).
  - destruct (highestSocket _ <? fd); simpl;
      (destruct (Z.eqb_spec c fd); [congruence|]); repeat split; set_solver.
  - destruct (0 <=? fd); simpl; repeat split; set_solver.
Qed.

Lemma fold_left_preserve {A B : Type} (P : A -> Prop) (f : A -> B -> A) (l : list B) :
  (forall x a, In a l -> P x -> P (f x a)) -> forall x, P x -> P (fold_left f l x).
Proof.
  induction l as [|b l IH]; simpl; intros Hf x Hx; [exact Hx|].
  apply IH.
  - intros y a Ha. apply Hf. right. exact Ha.
  - apply Hf; [left; reflexivity | exact Hx].
Qed.

Lemma bufAppend_keeps_data (alloc : bufAlloc_t) (b : buf_t) (d : list Byte.byte) :
  bufHasData b = true -> bufHasData (snd (bufAppend alloc b d)) = true.
Proof.
  destruct b as [db bb lb sb]. unfold bufHasData, bufAppend; simpl. intros H.
  destruct db as [p|]; [|discriminate]. apply N.ltb_lt in H.
  destruct (0 <? N.of_nat (length d))%N; [|simpl; apply N.ltb_lt; exact H].
  destruct (sb <? _)%N.
  - destruct (alloc _ _); simpl; apply N.ltb_lt; lia.
  - simpl. apply N.ltb_lt. lia.
Qed.

(** Handler actions that cannot take output away from [c]: no extract
    or clear on an output buffer, no re-registration of [c]. *)
Definition keeps_output (c : Z) (a : action) : Prop :=
  match a with
  | ActOBuf OpExtract | ActOBuf OpClear => False
  | ActAddServerSocket fd => fd <> c
  | _ => True
  end.

(** Handler actions that cannot put output into [c]'s buffer nor
    re-register [c]. *)
Definition adds_no_output (c : Z) (a : action) : Prop :=
  match a with
  | ActOBuf (OpAppend _) => False
  | ActAddServerSocket fd => fd <> c
  | _ => True
  end.

Section Actions.
Variable alloc : bufAlloc_t.
Variable handler : eventContext_t -> server -> list action.

Lemma runAction_keeps_output (c : Z) (ctx : eventContext_t) (w : server) (a : action) :
  keeps_output c a ->
  let w' := runAction alloc ctx w a in
  (c ∈ writeSet w -> c ∈ writeSet w') /\ readSet w ⊆ readSet w' /\
  (bufHasData (oBuf (sockets w c)) = true -> bufHasData (oBuf (sockets w' c)) = true).
Proof.
  intros Hk. destruct a as [op|op|fd|fd]; simpl.
  - destruct (ctxBufs ctx); simpl; [|auto].
    repeat split; auto. destruct (Z.eqb_spec c (cFd ctx)); subst; auto.
  - destruct (ctxBufs ctx); simpl; [|auto].
    repeat split; auto. destruct (Z.eqb_spec c (cFd ctx)); auto.
    subst. destruct op as [d| |]; simpl in Hk; try contradiction.
    apply bufAppend_keeps_data.
  - destruct (serverCloseSocket_sets fd w) as [H1 H2].
    repeat split; [set_solver | set_solver |].
    destruct (serverCloseSocket_sock fd c w) as [-> | ->]; auto.
  - destruct (serverAddServerSocket_other fd c w Hk) as (H1 & H2 & H3).
    rewrite H1, H2. auto.
Qed.

Lemma runAction_adds_no_output (c : Z) (ctx : eventContext_t) (w : server) (a : action) :
  adds_no_output c a ->
  let w' := runAction alloc ctx w a in
  bufHasData (oBuf (sockets w c)) = false -> keepAlive (sockets w c) = false ->
  bufHasData (oBuf (sockets w' c)) = false /\ keepAlive (sockets w' c) = false.
Proof.
  intros Hk. destruct a as [op|op|fd|fd]; simpl; intros Ho Hka.
  - destruct (ctxBufs ctx); simpl; [|auto].
    destruct (Z.eqb_spec c (cFd ctx)); subst; auto.
  - destruct (ctxBufs ctx); simpl; [|auto].
    destruct (Z.eqb_spec c (cFd ctx)); auto.
    subst. destruct op as [d| |]; simpl in Hk; try contradiction; simpl; auto.
  - destruct (serverCloseSocket_sock fd c w) as [-> | ->]; auto.
  - destruct (serverAddServerSocket_other fd c w Hk) as (H1 & _ & _). rewrite H1. auto.
Qed.

Lemma invokeCallback_keeps_output (c : Z) (ev : event_t) (s c0 : Z) (bufs : bool) (w : server) :
  (forall w0, Forall (keeps_output c) (handler (mkCtx ev s c0 bufs) w0)) ->
  let w' := _invokeCallback alloc handler ev s c0 bufs w in
  (c ∈ writeSet w -> c ∈ writeSet w') /\ readSet w ⊆ readSet w' /\
  (bufHasData (oBuf (sockets w c)) = true -> bufHasData (oBuf (sockets w' c)) = true).
Proof.
  intros Hh. unfold _invokeCallback. destruct (callbackSet w); [|simpl; auto].
  set (w1 := set_events w _).
  assert (Hw1 : (c ∈ writeSet w -> c ∈ writeSet w1) /\ readSet w ⊆ readSet w1 /\
    (bufHasData (oBuf (sockets w c)) = true -> bufHasData (oBuf (sockets w1 c)) = true))
    by (simpl; auto).
  apply (fold_left_preserve (fun x => (c ∈ writeSet w -> c ∈ writeSet x) /\
     readSet w ⊆ readSet x /\
     (bufHasData (oBuf (sockets w c)) = true -> bufHasData (oBuf (sockets x c)) = true)));
    [|exact Hw1].
  intros x a Ha (Hx1 & Hx2 & Hx3).
  pose proof (proj1 (Stdlib.Lists.List.Forall_forall _ _) (Hh w1) a Ha) as Hk.
  destruct (runAction_keeps_output c (mkCtx ev s c0 bufs) x a Hk) as (H1 & H2 & H3).
  repeat split; auto. set_solver.
Qed.

Lemma invokeCallback_adds_no_output (c : Z) (ev : event_t) (s c0 : Z) (bufs : bool) (w : server) :
  (forall w0, Forall (adds_no_output c) (handler (mkCtx ev s c0 bufs) w0)) ->
  let w' := _invokeCallback alloc handler ev s c0 bufs w in
  bufHasData (oBuf (sockets w c)) = false -> keepAlive (sockets w c) = false ->
  bufHasData (oBuf (sockets w' c)) = false /\ keepAlive (sockets w' c) = false.
Proof.
  intros Hh. unfold _invokeCallback. destruct (callbackSet w); [|simpl; auto].
  intros Ho Hk. set (w1 := set_events w _).
  assert (Hw1 : bufHasData (oBuf (sockets w1 c)) = false /\ keepAlive (sockets w1 c) = false)
    by (simpl; auto).
  apply (fold_left_preserve (fun x =>
     bufHasData (oBuf (sockets x c)) = false /\ keepAlive (sockets x c) = false)); [|exact Hw1].
  intros x a Ha (Hx1 & Hx2).
  pose proof (proj1 (Stdlib.Lists.List.Forall_forall _ _) (Hh w1) a Ha) as Ha'.
  apply (runAction_adds_no_output c (mkCtx ev s c0 bufs) x a Ha'); auto.
Qed.

End Actions.

(** ** The output path *)

Lemma bufAppend_empty_hasData (alloc : bufAlloc_t) (d : list Byte.byte) :
  d <> [] -> fst (bufAppend alloc emptyBuf d) = true ->
  bufHasData (snd (bufAppend alloc emptyBuf d)) = true.
Proof.
  intros Hd. unfold bufAppend. simpl. rewrite N.add_0_l.
  assert (Hl : (0 < N.of_nat (length d))%N) by (destruct d; [contradiction | simpl; lia]).
  pose proof (alignBufSize_ge (N.of_nat (length d))) as Ha.
  replace (0 <? N.of_nat (length d))%N with true by (symmetry; apply N.ltb_lt; lia).
  replace (0 <? _alignBufSize (N.of_nat (length d)))%N with true by (symmetry; apply N.ltb_lt; lia).
  destruct (alloc None _); simpl; [|intros Hf; discriminate Hf].
  intros _. unfold bufHasData; simpl. apply N.ltb_lt. lia.
Qed.

(** [socketWrite] on a partial [send] of [r] bytes: success, and the
    buffer is whatever re-appending the unwritten suffix to the emptied
    buffer gives. *)
Lemma socketWrite_partial (alloc : bufAlloc_t) (r : Z) (b : buf_t) :
  bufHasData b = true -> 0 < r < Z.of_N (len b) ->
  socketWrite alloc r b = (true, snd (bufAppend alloc emptyBuf (skipn (Z.to_nat r) (bytes b)))).
Proof.
  intros Hd Hr. unfold socketWrite. rewrite Hd. simpl.
  unfold send_result.
  replace (r <? 0) with false by (symmetry; apply Z.ltb_ge; lia).
  rewrite Z.min_l by lia.
  replace (r <? 0) with false by (symmetry; apply Z.ltb_ge; lia).
  replace (Z.to_N r <? len b)%N with true by (symmetry; apply N.ltb_lt; lia).
  replace (r =? 0) with false by (symmetry; apply Z.eqb_neq; lia).
  reflexivity.
Qed.

Lemma socketWrite_nothing_sent (alloc : bufAlloc_t) (r : Z) (b : buf_t) :
  bufHasData b = true -> r <= 0 -> fst (socketWrite alloc r b) = false.
Proof.
  intros Hd Hr. unfold socketWrite. rewrite Hd. simpl. unfold send_result.
  destruct (r <? 0) eqn:E; simpl.
  - destruct (Z.to_N 0 <? len b)%N; reflexivity.
  - apply Z.ltb_ge in E. rewrite Z.min_l by lia. replace r with 0 by lia. simpl.
    destruct (0 <? len b)%N; reflexivity.
Qed.

Definition writeCtx (c : Z) : eventContext_t :=
  mkCtx EVENT_SOCKET_WRITE INVALID_SOCKET c true.

(** [_handleOutput] after a partial [send] whose suffix was put back:
    unless the Write handler takes output away, the descriptor stays in
    the write set and nothing leaves the read set. *)
Lemma handleOutput_partial (alloc : bufAlloc_t)
    (handler : eventContext_t -> server -> list action) (r c : Z) (w : server) :
  let b := oBuf (sockets w c) in
  buf_inv b -> bufHasData b = true -> 0 < r < Z.of_N (len b) ->
  fst (bufAppend alloc emptyBuf (skipn (Z.to_nat r) (bytes b))) = true ->
  (forall w0, Forall (keeps_output c) (handler (writeCtx c) w0)) ->
  let w' := _handleOutput alloc handler r c w in
  (c ∈ writeSet w -> c ∈ writeSet w') /\ readSet w ⊆ readSet w'.
Proof.
  intros b Hi Hd Hr Ha Hh. unfold _handleOutput. fold b.
  rewrite (socketWrite_partial alloc r b Hd Hr).
  assert (Hne : skipn (Z.to_nat r) (bytes b) <> []).
  { destruct Hi as (_ & Hl & _). intros He.
    pose proof (f_equal (@length _) He) as Hlen. rewrite length_skipn in Hlen. simpl in Hlen.
    lia. }
  pose proof (bufAppend_empty_hasData alloc _ Hne Ha) as Hb'.
  set (b' := snd (bufAppend alloc emptyBuf _)) in *.
  set (w1 := upd_sock w c _).
  assert (Hw1 : bufHasData (oBuf (sockets w1 c)) = true) by (simpl; rewrite Z.eqb_refl; exact Hb').
  destruct (invokeCallback_keeps_output alloc handler c EVENT_SOCKET_WRITE INVALID_SOCKET c true w1 Hh)
    as (H1 & H2 & H3).
  rewrite (H3 Hw1). simpl. split; [intros Hc; apply H1; exact Hc | exact H2].
Qed.

(** The handler used in the counterexample: it empties the output
    buffer whenever it is told that a write happened. *)
Definition clearOnWrite (ctx : eventContext_t) (_ : server) : list action :=
  match event ctx with
  | EVENT_SOCKET_WRITE => [ActOBuf OpClear]
  | _ => []
  end.

Definition bufABCDE : buf_t :=
  mkBuf (Some 4096) [Byte.x41; Byte.x42; Byte.x43; Byte.x44; Byte.x45] 5%N 1024%N.

(** Client 5 with "ABCDE" pending, write interest enabled, callback set. *)
Definition pendingClient : server :=
  mkServer (fun i => if Z.eqb i 5 then mkSock emptyBuf bufABCDE true false else zeroSock)
    {[5]} {[5]} 5 true (fun _ => mkKsock [] false) [] [].

Example socketWrite_ABC :
  socketWrite okAlloc 3 bufABCDE = (true, mkBuf (Some 4096) [Byte.x44; Byte.x45] 2%N 1024%N).
Proof. reflexivity. Qed.

(** The result of the re-append is not checked: when the allocator
    fails there, the unwritten suffix is dropped and success is still
    reported. *)
Example socketWrite_suffix_lost :
  socketWrite failAlloc 3 bufABCDE = (true, emptyBuf).
Proof. reflexivity. Qed.

(** C2 (counterexample): the Write handler sees the buffer before the
    check, so a handler that empties it turns write interest off even
    though the kernel took only "ABC". *)
Lemma partial_write_interest_dropped :
  socketWrite okAlloc 3 bufABCDE = (true, mkBuf (Some 4096) [Byte.x44; Byte.x45] 2%N 1024%N) /\
  5 ∈ writeSet pendingClient /\
  5 ∉ writeSet (_handleOutput okAlloc clearOnWrite 3 5 pendingClient).
Proof.
  split; [reflexivity|]. split; [simpl; set_solver|].
  vm_compute. set_solver.
Qed.

(** C2 (amended): on a non-empty output buffer, a [send] that takes
    [0 < r < len] bytes makes [socketWrite] report success; when the
    unwritten suffix is re-appended successfully the buffer holds exactly
    that suffix in order, and write interest stays enabled after
    [_handleOutput] unless the Write handler extracts or clears output
    (or re-registers the descriptor); a [send] of zero bytes (or an
    error) is reported as failure. *)
Theorem partial_write_keeps_suffix (alloc : bufAlloc_t)
    (handler : eventContext_t -> server -> list action) (r c : Z) (w : server) :
  let b := oBuf (sockets w c) in
  let suffix := skipn (Z.to_nat r) (bytes b) in
  bufHasData b = true ->
  (0 < r < Z.of_N (len b) -> fst (socketWrite alloc r b) = true) /\
  (buf_inv b -> 0 < r < Z.of_N (len b) -> fst (bufAppend alloc emptyBuf suffix) = true ->
   (exists b', socketWrite alloc r b = (true, b') /\
      bytes b' = suffix /\ bytes b = firstn (Z.to_nat r) (bytes b) ++ bytes b' /\
      len b' = N.of_nat (length suffix) /\ bufHasData b' = true) /\
   ((forall w0, Forall (keeps_output c) (handler (writeCtx c) w0)) ->
      c ∈ writeSet w -> c ∈ writeSet (_handleOutput alloc handler r c w))) /\
  (forall r0, r0 <= 0 -> fst (socketWrite alloc r0 b) = false).
Proof.
  intros b suffix Hd. split; [|split].
  - intros Hr. rewrite (socketWrite_partial alloc r b Hd Hr). reflexivity.
  - intros Hi Hr Ha. split.
    + exists (snd (bufAppend alloc emptyBuf suffix)).
      split; [apply socketWrite_partial; auto|].
      destruct (bufAppend alloc emptyBuf suffix) as [ok b'] eqn:E. simpl in Ha. subst ok. simpl.
      pose proof (bufAppend_success alloc emptyBuf b' suffix E) as [E1 E2]. simpl in E1, E2.
      assert (Hne : suffix <> []).
      { destruct Hi as (_ & Hl & _). intros He. unfold suffix in He.
        pose proof (f_equal (@length _) He) as Hlen. rewrite length_skipn in Hlen. simpl in Hlen.
        lia. }
      pose proof (bufAppend_empty_hasData alloc suffix Hne) as Hh. rewrite E in Hh.
      split; [exact E1|]. split; [rewrite E1; unfold suffix; symmetry; apply take_drop|].
      split; [lia|]. apply Hh. reflexivity.
    + intros Hh Hc. apply (handleOutput_partial alloc handler r c w Hi Hd Hr Ha Hh). exact Hc.
  - intros r0 Hr0. apply socketWrite_nothing_sent; auto.
Qed.

Lemma partial_write_keeps_suffix_witness :
  fst (socketWrite failAlloc 3 bufABCDE) = true /\
  5 ∈ writeSet (_handleOutput okAlloc (fun _ _ => []) 3 5 pendingClient).
Proof.
  assert (Hi : buf_inv bufABCDE) by (unfold buf_inv; simpl; repeat split; try discriminate; lia).
  split.
  - destruct (partial_write_keeps_suffix failAlloc (fun _ _ => []) 3 5 pendingClient eq_refl)
      as (H1 & _ & _).
    exact (H1 ltac:(simpl; lia)).
  - destruct (partial_write_keeps_suffix okAlloc (fun _ _ => []) 3 5 pendingClient eq_refl)
      as (_ & H2 & _).
    destruct (H2 Hi ltac:(simpl; lia) eq_refl) as (_ & H3).
    apply H3; [intros _; constructor | simpl; set_solver].
Defined.

(** ** Deferred close of non-keep-alive clients *)

Lemma socketWrite_full (alloc : bufAlloc_t) (r : Z) (b : buf_t) :
  bufHasData b = true -> Z.of_N (len b) <= r -> socketWrite alloc r b = (true, emptyBuf).
Proof.
  intros Hd Hr. unfold socketWrite. rewrite Hd. simpl.
  assert (Hl : (0 < len b)%N).
  { unfold bufHasData in Hd. destruct (data b); [apply N.ltb_lt; exact Hd | discriminate]. }
  unfold send_result.
  replace (r <? 0) with false by (symmetry; apply Z.ltb_ge; lia).
  rewrite Z.min_r by lia.
  replace (Z.of_N (len b) <? 0) with false by (symmetry; apply Z.ltb_ge; lia).
  rewrite N2Z.id, N.ltb_irrefl.
  replace (Z.of_N (len b) =? 0) with false by (symmetry; apply Z.eqb_neq; lia).
  reflexivity.
Qed.

Lemma removeSocket_gone (alloc : bufAlloc_t)
    (handler : eventContext_t -> server -> list action) (c : Z) (w : server) :
  let w' := _removeSocket alloc handler c w in
  (c ∉ readSet w') /\ (c ∉ writeSet w') /\ sockets w' c = zeroSock.
Proof.
  unfold _removeSocket.
  set (w1 := if isServer (sockets w c) then _ else _).
  set (w3 := set_writeSet _ _).
  assert (H3 : (c ∉ readSet w3) /\ (c ∉ writeSet w3) /\ sockets w3 c = zeroSock).
  { unfold w3; simpl. rewrite Z.eqb_refl. split; [set_solver|]. split; [set_solver|]. reflexivity. }
  destruct (Z.eqb c (highestSocket w3)); exact H3.
Qed.

(** A client with keep-alive off, "AB" pending, whose peer has closed. *)
Definition closingClient : server :=
  mkServer
    (fun i => if Z.eqb i 5
              then mkSock emptyBuf (mkBuf (Some 4096) [Byte.x41; Byte.x42] 2%N 1024%N) false false
              else zeroSock)
    {[5]} {[5]} 5 true (fun _ => mkKsock [] false) [] [].

(** C5 (counterexample): a read step that meets end of file destroys the
    client although its output buffer still holds bytes. *)
Lemma eof_destroys_pending_client :
  keepAlive (sockets closingClient 5) = false /\
  bufHasData (oBuf (sockets closingClient 5)) = true /\
  5 ∈ readSet closingClient /\
  5 ∉ readSet (_handleClientInput okAlloc (fun _ _ => []) 5 closingClient).
Proof.
  split; [reflexivity|]. split; [reflexivity|]. split; [simpl; set_solver|].
  vm_compute. set_solver.
Qed.

(** C5 (amended): for a client with [keepAlive] off, the readiness check
    after a read or accept keeps it registered (and enables write
    interest) while its output buffer is non-empty; an output step with
    a partial [send] whose suffix is put back keeps it registered unless
    the Write handler takes output away; and the output step whose
    [send] drains the buffer, when the Write handler adds no output,
    destroys it in that step: it leaves both interest sets and is closed.
    A read step with no data, or a [send] that writes nothing, destroys
    it even with output pending. *)
Theorem keepalive_deferred_close (alloc : bufAlloc_t)
    (handler : eventContext_t -> server -> list action) (c : Z) (w : server) :
  let b := oBuf (sockets w c) in
  keepAlive (sockets w c) = false ->
  (bufHasData b = true ->
     let w' := _checkClientSocket alloc handler c w in
     readSet w' = readSet w /\ sockets w' = sockets w /\ c ∈ writeSet w') /\
  (forall r, buf_inv b -> bufHasData b = true -> 0 < r < Z.of_N (len b) ->
     fst (bufAppend alloc emptyBuf (skipn (Z.to_nat r) (bytes b))) = true ->
     (forall w0, Forall (keeps_output c) (handler (writeCtx c) w0)) ->
     c ∈ readSet w -> c ∈ readSet (_handleOutput alloc handler r c w)) /\
  (forall r, bufHasData b = true -> Z.of_N (len b) <= r ->
     (forall w0, Forall (adds_no_output c) (handler (writeCtx c) w0)) ->
     let w' := _handleOutput alloc handler r c w in
     (c ∉ readSet w') /\ (c ∉ writeSet w') /\ last (closed w') = Some c) /\
  (forall r, bufHasData b = true -> r <= 0 -> c ∉ readSet (_handleOutput alloc handler r c w)) /\
  (fst (fst (socketRead alloc (kernel w c) (iBuf (sockets w c)))) = false ->
     c ∉ readSet (_handleClientInput alloc handler c w)).
Proof.
  intros b Hk. split; [|split; [|split; [|split]]].
  - intros Hd. unfold _checkClientSocket. fold b. rewrite Hd. simpl.
    split; [reflexivity|]. split; [reflexivity|]. set_solver.
  - intros r Hi Hd Hr Ha Hh Hc.
    destruct (handleOutput_partial alloc handler r c w Hi Hd Hr Ha Hh) as [_ H2].
    apply H2. exact Hc.
  - intros r Hd Hr Hh. unfold _handleOutput. fold b.
    rewrite (socketWrite_full alloc r b Hd Hr).
    set (w1 := upd_sock w c _).
    assert (Hw1 : bufHasData (oBuf (sockets w1 c)) = false /\ keepAlive (sockets w1 c) = false)
      by (simpl; rewrite Z.eqb_refl; simpl; auto).
    destruct (invokeCallback_adds_no_output alloc handler c EVENT_SOCKET_WRITE INVALID_SOCKET c true
                w1 Hh (proj1 Hw1) (proj2 Hw1)) as [H1 H2].
    rewrite H1. simpl. rewrite H2. simpl.
    set (w2 := _invokeCallback alloc handler _ _ _ _ w1).
    destruct (removeSocket_gone alloc handler c (_disableSocketWrite c w2)) as (G1 & G2 & _).
    split; [exact G1|]. split; [exact G2|].
    unfold _removeSocket. set (wx := set_writeSet _ _).
    destruct (Z.eqb c (highestSocket wx)); simpl; apply last_snoc.
  - intros r Hd Hr. unfold _handleOutput. fold b.
    pose proof (socketWrite_nothing_sent alloc r b Hd Hr) as Hf.
    destruct (socketWrite alloc r b) as [ok ob]. simpl in Hf. subst ok.
    apply removeSocket_gone.
  - intros Hf. unfold _handleClientInput.
    destruct (socketRead alloc _ _) as [[ok k'] ib]. simpl in Hf. subst ok.
    apply removeSocket_gone.
Qed.

Lemma keepalive_deferred_close_witness :
  keepAlive (sockets closingClient 5) = false /\
  5 ∉ readSet (_handleOutput okAlloc (fun _ _ => []) 2 5 closingClient).
Proof.
  split; [reflexivity|].
  destruct (keepalive_deferred_close okAlloc (fun _ _ => []) 5 closingClient eq_refl)
    as (_ & _ & H3 & _).
  exact (proj1 (H3 2 eq_refl ltac:(simpl; lia) (fun _ => List.Forall_nil _))).
Defined.

(** ** Preservation of the registry invariant *)

Ltac hinv_same := eapply hinv_ext; [reflexivity | reflexivity | eassumption].

Lemma hinv_prepare (w : server) : hinv (serverPrepare w).
Proof.
  unfold hinv; simpl. split; [intros i Hi; set_solver|]. left. split; reflexivity.
Qed.

Lemma hinv_addSocket (fd : Z) (w : server) : hinv w -> hinv (snd (_addSocket fd w)).
Proof.
  intros [Hr Hh]. unfold _addSocket.
  destruct (_isValidSocket fd) eqn:Hv; [|split; auto].
  apply isValidSocket_spec in Hv.
  destruct (highestSocket w <? fd) eqn:E;
    unfold set_highest, set_readSet, upd_sock, set_sockets; simpl; rewrite E; unfold hinv; simpl.
  - apply Z.ltb_lt in E. split.
    + intros i Hi. apply elem_of_union in Hi as [Hi|Hi]; [apply elem_of_singleton in Hi; subst; lia | auto].
    + right. split; [set_solver|]. intros i Hi.
      apply elem_of_union in Hi as [Hi|Hi]; [apply elem_of_singleton in Hi; lia|].
      destruct Hh as [[_ He] | [_ Hm]]; [rewrite He in Hi; set_solver | specialize (Hm i Hi); lia].
  - apply Z.ltb_ge in E. split.
    + intros i Hi. apply elem_of_union in Hi as [Hi|Hi]; [apply elem_of_singleton in Hi; subst; lia | auto].
    + destruct Hh as [[Hx _] | [Hin Hm]].
      * exfalso. unfold INVALID_SOCKET in Hx. lia.
      * right. split; [set_solver|]. intros i Hi.
        apply elem_of_union in Hi as [Hi|Hi]; [apply elem_of_singleton in Hi; lia | auto].
Qed.

Lemma findHighestFrom_spec (n : nat) :
  forall (i : Z) (rs : gset Z), i < Z.of_nat n ->
  (findHighestFrom n i rs = INVALID_SOCKET /\ forall j, 0 <= j <= i -> j ∉ rs) \/
  (0 <= findHighestFrom n i rs <= i /\ findHighestFrom n i rs ∈ rs /\
   forall j, findHighestFrom n i rs < j <= i -> j ∉ rs).
Proof.
  induction n as [|f IH]; intros i rs Hi; simpl.
  - left. split; [reflexivity|]. intros j Hj. lia.
  - destruct (i <? 0) eqn:E; [apply Z.ltb_lt in E; left; split; [reflexivity | intros j Hj; lia]|].
    apply Z.ltb_ge in E.
    destruct (bool_decide (i ∈ rs)) eqn:B.
    + apply bool_decide_eq_true in B. right. split; [lia|]. split; [exact B|]. intros j Hj; lia.
    + apply bool_decide_eq_false in B.
      destruct (IH (i - 1) rs ltac:(lia)) as [[H1 H2] | (H1 & H2 & H3)].
      * left. split; [exact H1|]. intros j Hj.
        destruct (Z.eq_dec j i); [subst; exact B | apply H2; lia].
      * right. split; [lia|]. split; [exact H2|]. intros j Hj.
        destruct (Z.eq_dec j i); [subst; exact B | apply H3; lia].
Qed.

(** Removing [fd] from the read set and rescanning when [fd] was the
    highest keeps the invariant. *)
Lemma hinv_remove_rescan (fd : Z) (w : server) :
  hinv w ->
  let w3 := set_writeSet (set_readSet w (readSet w ∖ {[fd]})) (writeSet w ∖ {[fd]}) in
  hinv (if Z.eqb fd (highestSocket w3) then set_highest w3 (_findHighestSocket w3) else w3).
Proof.
  intros [Hr Hh]. simpl.
  assert (Hr3 : forall i, i ∈ readSet w ∖ {[fd]} -> 0 <= i < SOCKET_MAX)
    by (intros i Hi; apply Hr; set_solver).
  destruct (Z.eqb_spec fd (highestSocket w)) as [E|E].
  - unfold _findHighestSocket; simpl. split; [exact Hr3|].
    destruct Hh as [[Hx He] | [Hin Hm]].
    + left. rewrite Hx. split; [reflexivity|]. rewrite He. set_solver.
    + assert (H0 : 0 <= highestSocket w) by (apply Hr in Hin; lia).
      destruct (findHighestFrom_spec (Z.to_nat (highestSocket w)) (highestSocket w - 1)
                  (readSet w ∖ {[fd]}) ltac:(lia)) as [[H1 H2] | (H1 & H2 & H3)].
      * left. split; [exact H1|].
        apply set_eq. intros i. split; [|set_solver]. intros Hi.
        exfalso. pose proof (Hr3 i Hi). assert (i <> highestSocket w) by set_solver.
        assert (i <= highestSocket w) by (apply Hm; set_solver).
        apply (H2 i); [lia | exact Hi].
      * right. split; [exact H2|]. intros i Hi.
        assert (i <> highestSocket w) by set_solver.
        assert (i <= highestSocket w) by (apply Hm; set_solver).
        destruct (Z.le_gt_cases i (findHighestFrom (Z.to_nat (highestSocket w)) (highestSocket w - 1)
                                    (readSet w ∖ {[fd]}))); [assumption|].
        exfalso. apply (H3 i); [lia | exact Hi].
  - split; [exact Hr3|].
    destruct Hh as [[Hx He] | [Hin Hm]].
    + left. split; [exact Hx|]. rewrite He. set_solver.
    + right. split; [set_solver|]. intros i Hi. apply Hm. set_solver.
Qed.

Section Preserve.
Variable alloc : bufAlloc_t.
Variable handler : eventContext_t -> server -> list action.

Lemma hinv_serverCloseSocket (fd : Z) (w : server) : hinv w -> hinv (serverCloseSocket fd w).
Proof. intros H. unfold serverCloseSocket. destruct (_ && _); hinv_same. Qed.

Lemma hinv_serverAddServerSocket (fd : Z) (w : server) :
  hinv w -> hinv (snd (serverAddServerSocket fd w)).
Proof.
  intros H. pose proof (hinv_addSocket fd w H) as Ha. unfold serverAddServerSocket.
  destruct (_addSocket fd w) as [ok w1]. simpl in Ha.
  destruct ok; [hinv_same|]. destruct (0 <=? fd); hinv_same.
Qed.

Lemma hinv_runAction (ctx : eventContext_t) (w : server) (a : action) :
  hinv w -> hinv (runAction alloc ctx w a).
Proof.
  intros H. destruct a as [op|op|fd|fd]; simpl.
  - destruct (ctxBufs ctx); hinv_same.
  - destruct (ctxBufs ctx); hinv_same.
  - apply hinv_serverCloseSocket; exact H.
  - apply hinv_serverAddServerSocket; exact H.
Qed.

Lemma hinv_invokeCallback (ev : event_t) (s c : Z) (bufs : bool) (w : server) :
  hinv w -> hinv (_invokeCallback alloc handler ev s c bufs w).
Proof.
  intros H. unfold _invokeCallback. destruct (callbackSet w); [|exact H].
  apply (fold_left_preserve hinv); [intros x a _ Hx; apply hinv_runAction; exact Hx | hinv_same].
Qed.

Lemma hinv_removeSocket (fd : Z) (w : server) : hinv w -> hinv (_removeSocket alloc handler fd w).
Proof.
  intros H. unfold _removeSocket.
  set (w1 := if isServer (sockets w fd) then _ else _).
  assert (H1 : hinv w1) by (unfold w1; destruct (isServer _); apply hinv_invokeCallback; exact H).
  set (w2 := upd_sock w1 fd _).
  assert (H2 : hinv w2) by hinv_same.
  pose proof (hinv_remove_rescan fd w2 H2) as H3.
  eapply hinv_ext; [reflexivity | reflexivity | exact H3].
Qed.

Lemma hinv_checkClientSocket (c : Z) (w : server) : hinv w -> hinv (_checkClientSocket alloc handler c w).
Proof.
  intros H. unfold _checkClientSocket.
  destruct (bufHasData _); [hinv_same|].
  destruct (negb _); [apply hinv_removeSocket; exact H | exact H].
Qed.

Lemma hinv_handleServerInput (r : accept_res) (sfd : Z) (w : server) :
  hinv w -> hinv (_handleServerInput alloc handler r sfd w).
Proof.
  intros H. unfold _handleServerInput.
  destruct (0 <=? socketAccept r); [|apply hinv_removeSocket; exact H].
  pose proof (hinv_addSocket (socketAccept r) w H) as Ha.
  destruct (_addSocket (socketAccept r) w) as [ok w1]. simpl in Ha.
  destruct ok; [|hinv_same].
  apply hinv_checkClientSocket, hinv_invokeCallback. exact Ha.
Qed.

Lemma hinv_handleClientInput (c : Z) (w : server) :
  hinv w -> hinv (_handleClientInput alloc handler c w).
Proof.
  intros H. unfold _handleClientInput.
  destruct (socketRead alloc _ _) as [[ok k'] ib].
  assert (H1 : hinv (upd_sock (set_kernel w (fun i => if Z.eqb i c then k' else kernel w i)) c
                 (mkSock ib (oBuf (sockets w c)) (keepAlive (sockets w c)) (isServer (sockets w c)))))
    by hinv_same.
  destruct ok.
  - apply hinv_checkClientSocket, hinv_invokeCallback. exact H1.
  - apply hinv_removeSocket. exact H1.
Qed.

Lemma hinv_handleInput (r : accept_res) (fd : Z) (w : server) :
  hinv w -> hinv (_handleInput alloc handler r fd w).
Proof.
  intros H. unfold _handleInput. destruct (isServer _).
  - apply hinv_handleServerInput; exact H.
  - apply hinv_handleClientInput; exact H.
Qed.

Lemma hinv_handleOutput (r c : Z) (w : server) :
  hinv w -> hinv (_handleOutput alloc handler r c w).
Proof.
  intros H. unfold _handleOutput.
  destruct (socketWrite alloc r _) as [ok ob].
  set (w1 := upd_sock w c _).
  assert (H1 : hinv w1) by hinv_same.
  destruct ok; [|apply hinv_removeSocket; exact H1].
  pose proof (hinv_invokeCallback EVENT_SOCKET_WRITE INVALID_SOCKET c true w1 H1) as H2.
  set (w2 := _invokeCallback alloc handler _ _ _ _ w1) in *.
  destruct (negb (bufHasData _)); [|exact H2].
  assert (H3 : hinv (_disableSocketWrite c w2)) by hinv_same.
  destruct (negb _); [apply hinv_removeSocket; exact H3 | exact H3].
Qed.

Lemma hinv_execLoop (o : exec_oracle) (fuel : nat) :
  forall fd rs ws w, hinv w -> hinv (execLoop alloc handler o fuel fd rs ws w).
Proof.
  induction fuel as [|f IH]; intros fd rs ws w H; simpl; [exact H|].
  destruct (fd <=? highestSocket w); [|exact H].
  apply IH.
  destruct (bool_decide (fd ∈ ws)); [apply hinv_handleOutput|];
    (destruct (bool_decide (fd ∈ rs)); [apply hinv_handleInput|]); exact H.
Qed.

Lemma hinv_serverExec (o : exec_oracle) (w : server) :
  hinv w -> hinv (snd (serverExec alloc handler o w)).
Proof.
  intros H. unfold serverExec.
  destruct (highestSocket w <? 0); [exact H|].
  destruct (o_select o); cbn [snd].
  - apply hinv_execLoop; exact H.
  - apply hinv_invokeCallback; exact H.
  - exact H.
  - exact H.
Qed.

End Preserve.

(** Descriptors 3, 7 and 9 registered on a freshly prepared server. *)
Definition server379 : server :=
  snd (_addSocket 9 (snd (_addSocket 7 (snd (_addSocket 3 (serverPrepare initServer)))))).

(** C4: [_highestSocket] is the greatest descriptor of the read set, or
    [INVALID_SOCKET] when the set is empty, after [serverPrepare], after
    every [_addSocket] and [_removeSocket], and after every
    [serverExec] tick (whatever the kernel answers and whatever the
    handler does through its API); with {3, 7, 9} registered, removing
    9 gives 7 and removing all three gives the sentinel, after which a
    tick returns 2. *)
Theorem highest_tracks_read_set (alloc : bufAlloc_t)
    (handler : eventContext_t -> server -> list action) :
  (forall w, hinv (serverPrepare w)) /\
  (forall fd w, hinv w -> hinv (snd (_addSocket fd w))) /\
  (forall fd w, hinv w -> hinv (_removeSocket alloc handler fd w)) /\
  (forall o w, hinv w -> hinv (snd (serverExec alloc handler o w))) /\
  (readSet server379 = {[3; 7; 9]} /\ highestSocket server379 = 9 /\
   let w1 := _removeSocket alloc handler 9 server379 in
   highestSocket w1 = 7 /\
   let w0 := _removeSocket alloc handler 3 (_removeSocket alloc handler 7 w1) in
   highestSocket w0 = INVALID_SOCKET /\ readSet w0 = ∅ /\
   forall o, fst (serverExec alloc handler o w0) = 2).
Proof.
  split; [exact hinv_prepare|].
  split; [exact hinv_addSocket|].
  split; [intros fd w; apply hinv_removeSocket|].
  split; [intros o w; apply hinv_serverExec|].
  split; [vm_compute; reflexivity|].
  split; [reflexivity|].
  split; [vm_compute; reflexivity|].
  split; [vm_compute; reflexivity|].
  split; [vm_compute; reflexivity|].
  intros o. vm_compute. reflexivity.
Qed.

Lemma highest_tracks_read_set_witness :
  hinv server379 /\ hinv (_removeSocket okAlloc (fun _ _ => []) 9 server379) /\
  highestSocket (_removeSocket okAlloc (fun _ _ => []) 9 server379) = 7.
Proof.
  destruct (highest_tracks_read_set okAlloc (fun _ _ => [])) as (H1 & H2 & H3 & _ & (_ & _ & H7 & _)).
  assert (H : hinv server379).
  { unfold server379. apply H2, H2, H2, H1. }
  split; [exact H|]. split; [apply H3; exact H|]. exact H7.
Defined.

(** * Further properties of buffer.c *)

Lemma alignBufSize_spec (s : N) :
  (_alignBufSize s mod IO_BUF_SIZE = 0)%N /\ (s <= _alignBufSize s)%N /\
  (_alignBufSize s < s + IO_BUF_SIZE)%N /\
  (forall m, (m mod IO_BUF_SIZE = 0)%N -> (s <= m)%N -> (_alignBufSize s <= m)%N).
Proof.
  unfold _alignBufSize, IO_BUF_SIZE.
  pose proof (N.div_mod s 1024 ltac:(lia)) as Hd.
  pose proof (N.mod_lt s 1024 ltac:(lia)) as Hm.
  set (q := (s / 1024)%N) in *. set (r := (s mod 1024)%N) in *.
  assert (Hsub : (s - r = 1024 * q)%N) by lia.
  rewrite Hsub.
  destruct (0 <? r)%N eqn:E; [apply N.ltb_lt in E | apply N.ltb_ge in E].
  - replace (1024 * q + 1024)%N with ((q + 1) * 1024)%N by lia.
    split; [apply N.Div0.mod_mul|]. split; [lia|]. split; [lia|].
    intros m Hm0 Hsm. pose proof (N.div_mod m 1024 ltac:(lia)) as Hdm. rewrite Hm0 in Hdm. lia.
  - rewrite N.add_0_r. replace (1024 * q)%N with (q * 1024)%N by lia.
    split; [apply N.Div0.mod_mul|]. split; [lia|]. split; [lia|].
    intros m _ Hsm. lia.
Qed.

(** The shape of every buffer the API can produce: [buf_inv], a capacity
    that is a multiple of [IO_BUF_SIZE], and less than one block of
    capacity beyond the stored length. *)
Definition buf_shape (b : buf_t) : Prop :=
  buf_inv b /\ (size b mod IO_BUF_SIZE = 0)%N /\ (size b < len b + IO_BUF_SIZE)%N.

Lemma emptyBuf_shape : buf_shape emptyBuf.
Proof. split; [exact emptyBuf_inv|]. split; reflexivity. Qed.

Lemma bufAppend_shape (alloc : bufAlloc_t) (b : buf_t) (d : list Byte.byte) :
  buf_shape b -> buf_shape (snd (bufAppend alloc b d)).
Proof.
  intros (Hi & Hm & Hs). split; [apply bufAppend_inv; exact Hi|].
  destruct (alignBufSize_spec (len b + N.of_nat (length d))) as (A1 & A2 & A3 & _).
  unfold bufAppend.
  destruct (0 <? N.of_nat (length d))%N eqn:E; [|simpl; auto].
  destruct (size b <? _alignBufSize (len b + N.of_nat (length d)))%N eqn:E2.
  - destruct (alloc (data b) _); simpl; [split; [exact A1 | exact A3] | auto].
  - simpl. split; [exact Hm | lia].
Qed.

Lemma applyBufOp_shape (alloc : bufAlloc_t) (op : bufOp) (b : buf_t) :
  buf_shape b -> buf_shape (applyBufOp alloc op b).
Proof.
  intros H. destruct op as [d| |]; simpl.
  - apply bufAppend_shape; exact H.
  - exact emptyBuf_shape.
  - exact emptyBuf_shape.
Qed.

Lemma bufAppendAll_inv (alloc : bufAlloc_t) (cs : list (list Byte.byte)) :
  forall b0 b1, buf_inv b0 -> bufAppendAll alloc b0 cs = Some b1 -> buf_inv b1.
Proof.
  induction cs as [|c cs IH]; simpl; intros b0 b1 Hi Ha.
  - inversion Ha; subst; auto.
  - destruct (bufAppend alloc b0 c) as [ok b2] eqn:E. destruct ok; [|discriminate].
    apply (IH b2); auto. pose proof (bufAppend_inv alloc b0 c Hi) as Hj.
    rewrite E in Hj. exact Hj.
Qed.

Lemma buf_inv_len0 (b : buf_t) : buf_inv b -> len b = 0%N -> b = emptyBuf.
Proof.
  destruct b as [d bs l sz]. unfold buf_inv; simpl. intros (H1 & H2 & H3 & H4) Hl.
  assert (d = None) by (apply H4; exact Hl). subst d.
  assert (sz = 0%N) by (apply H1; reflexivity). subst sz.
  destruct bs; [subst l; reflexivity | simpl in H2; lia].
Qed.

(** The macro [_alignBufSize(s)] on a [size_t] argument: for every [s]
    up to [SIZE_MAX + 1 - IO_BUF_SIZE] it agrees with the unbounded
    computation and gives the least multiple of [IO_BUF_SIZE] that is at
    least [s]; above that bound the addition wraps and it gives 0. *)
Theorem alignBufSize_least_multiple (s : N) :
  (s <= SIZE_MAX)%N ->
  ((s <= SIZE_MAX + 1 - IO_BUF_SIZE)%N ->
     _alignBufSize_size_t s = _alignBufSize s /\
     (_alignBufSize_size_t s mod IO_BUF_SIZE = 0)%N /\ (s <= _alignBufSize_size_t s)%N /\
     (_alignBufSize_size_t s < s + IO_BUF_SIZE)%N /\
     (forall m, (m mod IO_BUF_SIZE = 0)%N -> (s <= m)%N -> (_alignBufSize_size_t s <= m)%N)) /\
  ((SIZE_MAX + 1 - IO_BUF_SIZE < s)%N -> _alignBufSize_size_t s = 0%N).
Proof.
  intros Hs.
  change (_alignBufSize_size_t s) with ((_alignBufSize s) mod (2 ^ 64))%N.
  destruct (alignBufSize_spec s) as (A1 & A2 & A3 & A4).
  assert (HM : (2 ^ 64 = 1024 * 2 ^ 54)%N) by reflexivity.
  unfold SIZE_MAX in *. unfold IO_BUF_SIZE in *.
  rewrite HM in *. set (p := (2 ^ 54)%N) in *.
  assert (Hp : (1 <= p)%N) by (unfold p; vm_compute; discriminate).
  split.
  - intros Hb.
    assert (Hlt : (_alignBufSize s < 1024 * p)%N).
    { assert (H := A4 (1024 * p - 1024)%N).
      replace (1024 * p - 1024)%N with ((p - 1) * 1024)%N in H by lia.
      rewrite N.Div0.mod_mul in H. specialize (H eq_refl ltac:(lia)). lia. }
    rewrite N.mod_small by exact Hlt.
    split; [reflexivity|]. auto.
  - intros Hb.
    pose proof (N.div_mod (_alignBufSize s) 1024 ltac:(lia)) as Hd. rewrite A1 in Hd.
    set (q := (_alignBufSize s / 1024)%N) in *.
    assert (Hq : q = p) by lia.
    rewrite Hd, Hq, N.add_0_r. apply N.Div0.mod_same.
Qed.

Lemma alignBufSize_least_multiple_witness :
  _alignBufSize_size_t 1500 = 2048%N /\ _alignBufSize_size_t SIZE_MAX = 0%N.
Proof.
  split.
  - destruct (alignBufSize_least_multiple 1500 ltac:(unfold SIZE_MAX; vm_compute; discriminate))
      as [H _].
    destruct (H ltac:(unfold SIZE_MAX, IO_BUF_SIZE; vm_compute; discriminate)) as (E & _).
    rewrite E. reflexivity.
  - apply (alignBufSize_least_multiple SIZE_MAX (N.le_refl _)).
    unfold SIZE_MAX, IO_BUF_SIZE. vm_compute. reflexivity.
Defined.

(** Whatever sequence of [bufAppend] (with any allocator), [bufExtract]
    and [bufClear] is applied to an empty buffer, the result has NULL
    storage exactly when its capacity and length are 0, holds [len]
    bytes, has [len <= size], a capacity that is a multiple of
    [IO_BUF_SIZE], and less than one [IO_BUF_SIZE] block of capacity
    beyond its length. *)
Theorem bufOps_keep_shape (alloc : bufAlloc_t) (ops : list bufOp) :
  buf_shape (fold_left (fun b op => applyBufOp alloc op b) ops emptyBuf).
Proof.
  apply (fold_left_preserve buf_shape); [|exact emptyBuf_shape].
  intros b op _ Hb. apply applyBufOp_shape; exact Hb.
Qed.

(** On a buffer of that shape, appending data that fits in the current
    capacity (or no data at all) never calls the allocator: the result
    is the same for every allocator, the append succeeds, and the
    storage pointer and capacity are kept. *)
Theorem bufAppend_fits_no_alloc (alloc alloc' : bufAlloc_t) (b : buf_t) (d : list Byte.byte) :
  buf_shape b -> (len b + N.of_nat (length d) <= size b)%N ->
  bufAppend alloc b d = bufAppend alloc' b d /\
  bufAppend alloc b d = (true, mkBuf (data b) (bytes b ++ d) (len b + N.of_nat (length d)) (size b)).
Proof.
  intros (_ & Hm & _) Hle.
  destruct (alignBufSize_spec (len b + N.of_nat (length d))) as (_ & _ & _ & A4).
  pose proof (A4 (size b) Hm Hle) as Ha.
  unfold bufAppend.
  destruct (0 <? N.of_nat (length d))%N eqn:E.
  - replace (size b <? _alignBufSize (len b + N.of_nat (length d)))%N with false
      by (symmetry; apply N.ltb_ge; exact Ha).
    split; reflexivity.
  - apply N.ltb_ge in E. destruct d; [|simpl in E; lia].
    destruct b; simpl. rewrite app_nil_r, N.add_0_r. split; reflexivity.
Qed.

Lemma bufAppend_fits_no_alloc_witness :
  buf_shape (mkBuf (Some 7) [Byte.x41] 1%N 1024%N) /\
  bufAppend failAlloc (mkBuf (Some 7) [Byte.x41] 1%N 1024%N) [Byte.x42] =
    (true, mkBuf (Some 7) [Byte.x41; Byte.x42] 2%N 1024%N).
Proof.
  assert (Hs : buf_shape (mkBuf (Some 7) [Byte.x41] 1%N 1024%N)).
  { unfold buf_shape, buf_inv; simpl. repeat split; try discriminate; try lia. }
  split; [exact Hs|].
  exact (proj2 (bufAppend_fits_no_alloc failAlloc okAlloc _ [Byte.x42] Hs ltac:(simpl; lia))).
Defined.

(** After any sequence of successful appends on an empty buffer,
    [bufPeek] returns the concatenated chunks and their length without
    touching the buffer: a [bufExtract] that follows returns the same
    pointer, bytes and length. *)
Theorem bufPeek_after_appends (alloc : bufAlloc_t) (chunks : list (list Byte.byte))
    (b : buf_t) (out : N) :
  bufAppendAll alloc emptyBuf chunks = Some b ->
  let '(p, bs, l) := bufPeek b out in
  bs = concat chunks /\ l = N.of_nat (length (concat chunks)) /\
  bufExtract b out = (p, bs, l, emptyBuf).
Proof.
  intros H. pose proof (bufAppendAll_bytes alloc chunks emptyBuf b H) as [H1 H2].
  simpl in H1, H2. simpl. split; [exact H1|]. split; [lia | reflexivity].
Qed.

Lemma bufPeek_after_appends_witness :
  bufAppendAll okAlloc emptyBuf [[Byte.x41]; [Byte.x42]] =
    Some (mkBuf (Some 4096) [Byte.x41; Byte.x42] 2%N 1024%N) /\
  (let '(p, bs, l) := bufPeek (mkBuf (Some 4096) [Byte.x41; Byte.x42] 2%N 1024%N) 0%N in
   bs = concat [[Byte.x41]; [Byte.x42]] /\ l = N.of_nat (length (concat [[Byte.x41]; [Byte.x42]])) /\
   bufExtract (mkBuf (Some 4096) [Byte.x41; Byte.x42] 2%N 1024%N) 0%N = (p, bs, l, emptyBuf)).
Proof.
  split; [reflexivity|].
  exact (bufPeek_after_appends okAlloc [[Byte.x41]; [Byte.x42]]
           (mkBuf (Some 4096) [Byte.x41; Byte.x42] 2%N 1024%N) 0%N eq_refl).
Defined.

(** [bufSetAlloc] never installs NULL: after a sequence of calls the
    allocator in use is the last non-NULL argument, or the one in use
    before when every argument was NULL. *)
Theorem bufSetAlloc_last_non_null (cur : bufAlloc_t) (calls : list (option bufAlloc_t)) :
  (Forall (fun c => c = None) calls -> fold_left bufSetAlloc calls cur = cur) /\
  (forall pre a post, calls = pre ++ Some a :: post -> Forall (fun c => c = None) post ->
     fold_left bufSetAlloc calls cur = a).
Proof.
  assert (Hnone : forall l x, Forall (fun c => c = None) l -> fold_left bufSetAlloc l x = x).
  { induction l as [|c l IH]; intros x H; [reflexivity|].
    inversion H; subst. simpl. apply IH. assumption. }
  split; [apply Hnone|].
  intros pre a post -> Hp. rewrite fold_left_app. simpl. apply Hnone. exact Hp.
Qed.

Lemma bufSetAlloc_last_non_null_witness :
  fold_left bufSetAlloc [Some failAlloc; None] okAlloc = failAlloc.
Proof.
  apply (proj2 (bufSetAlloc_last_non_null okAlloc [Some failAlloc; None]) [] failAlloc [None]);
    [reflexivity | repeat constructor].
Defined.

(** * Further properties of socket.c *)

(** [socketRead] on end of file (nothing queued) or a [recv] error
    reports no data and changes neither the kernel queue nor the
    buffer; a successful read appends and consumes exactly the first
    [min(IO_BUF_SIZE, queued)] bytes. *)
Theorem socketRead_eof_error_bound (alloc : bufAlloc_t) (k : ksock) (b : buf_t) :
  ((kq k = [] \/ kerr k = true) -> socketRead alloc k b = (false, k, b)) /\
  (let '(ok, k', b') := socketRead alloc k b in
   ok = true ->
   kerr k = false /\ kq k <> [] /\
   length (kq k) = (length (kq k') + Nat.min (N.to_nat IO_BUF_SIZE) (length (kq k)))%nat /\
   bytes b' = bytes b ++ take (N.to_nat IO_BUF_SIZE) (kq k)).
Proof.
  split.
  - intros [He | He]; unfold socketRead, recv_peek.
    + destruct (kerr k); [reflexivity|]. rewrite He. reflexivity.
    + rewrite He. reflexivity.
  - unfold socketRead, recv_peek.
    destruct (kerr k) eqn:Ek; [simpl; discriminate|].
    set (n := N.to_nat IO_BUF_SIZE). set (p := take n (kq k)).
    destruct (0 <? Z.of_nat (length p)) eqn:Hp; [|discriminate].
    apply Z.ltb_lt in Hp.
    destruct (bufAppend alloc b p) as [ok b'] eqn:Ea. destruct ok; [|discriminate].
    intros _. apply bufAppend_success in Ea as [E1 _].
    split; [reflexivity|].
    split; [intros He; unfold p in Hp; rewrite He in Hp; simpl in Hp; lia|].
    split; [|exact E1].
    unfold recv_consume; cbn [kq]. rewrite Nat2Z.id. unfold p. fold n.
    rewrite length_drop, length_take.
    pose proof (Nat.le_min_r n (length (kq k))). lia.
Qed.

Lemma socketRead_eof_error_bound_witness :
  socketRead okAlloc (mkKsock [] false) emptyBuf = (false, mkKsock [] false, emptyBuf).
Proof.
  exact (proj1 (socketRead_eof_error_bound okAlloc (mkKsock [] false) emptyBuf) (or_introl eq_refl)).
Defined.

(** A record is usable when [socket] returns a descriptor and [bind]
    succeeds on it. *)
Definition candUsable (c : addrCand) : bool := (0 <=? cand_socket c) && cand_bind c.

(** The descriptors [socket] returned for a list of records. *)
Definition openedFds (l : list addrCand) : list Z :=
  map cand_socket (List.filter (fun c => 0 <=? cand_socket c) l).

Lemma openServerLoop_none (l : list addrCand) :
  forall cl, Forall (fun c => candUsable c = false) l ->
  openServerLoop l cl = (None, cl ++ openedFds l).
Proof.
  induction l as [|c l IH]; intros cl H; simpl.
  - rewrite app_nil_r. reflexivity.
  - inversion H as [|x y Hc Hl]; subst. unfold candUsable in Hc. unfold openedFds; simpl.
    destruct (cand_socket c <? 0) eqn:E.
    + apply Z.ltb_lt in E. replace (0 <=? cand_socket c) with false by (symmetry; apply Z.leb_gt; lia).
      apply IH. exact Hl.
    + apply Z.ltb_ge in E. replace (0 <=? cand_socket c) with true in * by (symmetry; apply Z.leb_le; lia).
      simpl in Hc. rewrite Hc. rewrite IH by exact Hl. rewrite <- app_assoc. reflexivity.
Qed.

Lemma openServerLoop_first (pre : list addrCand) (c : addrCand) (post : list addrCand) :
  forall cl, Forall (fun p => candUsable p = false) pre -> candUsable c = true ->
  openServerLoop (pre ++ c :: post) cl = (Some (cand_socket c), cl ++ openedFds pre).
Proof.
  induction pre as [|p pre IH]; intros cl Hp Hc; simpl.
  - unfold candUsable in Hc. apply andb_true_iff in Hc as [H1 H2]. apply Z.leb_le in H1.
    replace (cand_socket c <? 0) with false by (symmetry; apply Z.ltb_ge; lia).
    rewrite H2, app_nil_r. reflexivity.
  - inversion Hp as [|x y Hq Hl]; subst. unfold candUsable in Hq. unfold openedFds; simpl.
    destruct (cand_socket p <? 0) eqn:E.
    + apply Z.ltb_lt in E. replace (0 <=? cand_socket p) with false by (symmetry; apply Z.leb_gt; lia).
      apply IH; assumption.
    + apply Z.ltb_ge in E. replace (0 <=? cand_socket p) with true in * by (symmetry; apply Z.leb_le; lia).
      simpl in Hq. rewrite Hq. rewrite IH by assumption. rewrite <- app_assoc. reflexivity.
Qed.

(** [socketOpenServer] uses the first [getaddrinfo] record on which
    [socket] and [bind] succeed and never tries the records after it;
    it returns that descriptor when [listen] succeeds, and otherwise
    INVALID_SOCKET with no fallback to later records.  It leaks no
    descriptor: every descriptor [socket] returned on the way, and the
    chosen one when [listen] fails, is closed. *)
Theorem socketOpenServer_first_usable (l : list addrCand) (listenOk : bool) :
  socketOpenServer None listenOk = (INVALID_SOCKET, []) /\
  (Forall (fun c => candUsable c = false) l ->
     socketOpenServer (Some l) listenOk = (INVALID_SOCKET, openedFds l)) /\
  (forall pre c post, l = pre ++ c :: post ->
     Forall (fun p => candUsable p = false) pre -> candUsable c = true ->
     socketOpenServer (Some l) listenOk =
       if listenOk then (cand_socket c, openedFds pre)
       else (INVALID_SOCKET, openedFds pre ++ [cand_socket c])).
Proof.
  split; [reflexivity|]. split.
  - intros H. unfold socketOpenServer. rewrite (openServerLoop_none l [] H). reflexivity.
  - intros pre c post -> Hp Hc. unfold socketOpenServer.
    rewrite (openServerLoop_first pre c post [] Hp Hc). simpl.
    destruct listenOk; reflexivity.
Qed.

Lemma socketOpenServer_first_usable_witness :
  socketOpenServer (Some [mkCand (-1) false; mkCand 3 false; mkCand 4 true; mkCand 5 true]) false
    = (INVALID_SOCKET, [3; 4]).
Proof.
  exact (proj2 (proj2 (socketOpenServer_first_usable
           [mkCand (-1) false; mkCand 3 false; mkCand 4 true; mkCand 5 true] false))
           [mkCand (-1) false; mkCand 3 false] (mkCand 4 true) [mkCand 5 true]
           eq_refl ltac:(repeat constructor) eq_refl).
Defined.

(** * Further properties of server.c *)

(** ** Events and closes recorded by the registry primitives *)

Lemma serverCloseSocket_meta (fd : Z) (w : server) :
  events (serverCloseSocket fd w) = events w /\
  callbackSet (serverCloseSocket fd w) = callbackSet w /\
  closed (serverCloseSocket fd w) = closed w /\
  highestSocket (serverCloseSocket fd w) = highestSocket w.
Proof. unfold serverCloseSocket. destruct (_ && _); simpl; repeat split. Qed.

Lemma addSocket_meta (fd : Z) (w : server) :
  events (snd (_addSocket fd w)) = events w /\
  callbackSet (snd (_addSocket fd w)) = callbackSet w /\
  closed (snd (_addSocket fd w)) = closed w.
Proof.
  unfold _addSocket. destruct (_isValidSocket fd); [destruct (highestSocket _ <? fd)|]; simpl; repeat split.
Qed.

Lemma serverAddServerSocket_meta (fd : Z) (w : server) :
  events (snd (serverAddServerSocket fd w)) = events w /\
  callbackSet (snd (serverAddServerSocket fd w)) = callbackSet w.
Proof.
  unfold serverAddServerSocket. pose proof (addSocket_meta fd w) as (H1 & H2 & _).
  destruct (_addSocket fd w) as [ok w1]. simpl in *.
  destruct ok; [simpl; auto|]. destruct (0 <=? fd); simpl; auto.
Qed.

Lemma runAction_meta (alloc : bufAlloc_t) (ctx : eventContext_t) (w : server) (a : action) :
  events (runAction alloc ctx w a) = events w /\ callbackSet (runAction alloc ctx w a) = callbackSet w.
Proof.
  destruct a as [op|op|fd|fd]; simpl.
  - destruct (ctxBufs ctx); simpl; auto.
  - destruct (ctxBufs ctx); simpl; auto.
  - destruct (serverCloseSocket_meta fd w) as (H1 & H2 & _). auto.
  - apply serverAddServerSocket_meta.
Qed.

Lemma invokeCallback_meta (alloc : bufAlloc_t) (handler : eventContext_t -> server -> list action)
    (ev : event_t) (s c : Z) (bufs : bool) (w : server) :
  events (_invokeCallback alloc handler ev s c bufs w) =
    events w ++ (if callbackSet w then [mkCtx ev s c bufs] else []) /\
  callbackSet (_invokeCallback alloc handler ev s c bufs w) = callbackSet w.
Proof.
  unfold _invokeCallback. destruct (callbackSet w) eqn:E; [|rewrite app_nil_r; auto].
  apply (fold_left_preserve (fun x => events x = events w ++ [mkCtx ev s c bufs] /\ callbackSet x = true)).
  - intros x a _ [H1 H2]. destruct (runAction_meta alloc (mkCtx ev s c bufs) x a) as [G1 G2].
    rewrite G1, G2. auto.
  - simpl. auto.
Qed.

Lemma removeSocket_meta (alloc : bufAlloc_t) (handler : eventContext_t -> server -> list action)
    (fd : Z) (w : server) :
  events (_removeSocket alloc handler fd w) =
    events w ++ (if callbackSet w then
                   [if isServer (sockets w fd) then mkCtx EVENT_SOCKET_CLOSE fd INVALID_SOCKET false
                    else mkCtx EVENT_SOCKET_CLOSE INVALID_SOCKET fd false]
                 else []) /\
  callbackSet (_removeSocket alloc handler fd w) = callbackSet w /\
  last (closed (_removeSocket alloc handler fd w)) = Some fd.
Proof.
  unfold _removeSocket.
  assert (H1 : events (if isServer (sockets w fd)
                       then _invokeCallback alloc handler EVENT_SOCKET_CLOSE fd INVALID_SOCKET false w
                       else _invokeCallback alloc handler EVENT_SOCKET_CLOSE INVALID_SOCKET fd false w) =
               events w ++ (if callbackSet w then
                   [if isServer (sockets w fd) then mkCtx EVENT_SOCKET_CLOSE fd INVALID_SOCKET false
                    else mkCtx EVENT_SOCKET_CLOSE INVALID_SOCKET fd false] else []) /\
               callbackSet (if isServer (sockets w fd)
                       then _invokeCallback alloc handler EVENT_SOCKET_CLOSE fd INVALID_SOCKET false w
                       else _invokeCallback alloc handler EVENT_SOCKET_CLOSE INVALID_SOCKET fd false w) =
               callbackSet w).
  { destruct (isServer (sockets w fd)); apply invokeCallback_meta. }
  set (w1 := if isServer (sockets w fd) then _ else _) in *.
  destruct (Z.eqb fd (highestSocket (set_writeSet _ _))); simpl;
    (split; [apply H1 | split; [apply H1 | apply last_snoc]]).
Qed.

Lemma removeSocket_last_closed (alloc : bufAlloc_t) (handler : eventContext_t -> server -> list action)
    (fd : Z) (w : server) :
  last (closed (_removeSocket alloc handler fd w)) = Some fd.
Proof. apply removeSocket_meta. Qed.

(** [_addSocket] on a descriptor of the table. *)
Lemma addSocket_valid (fd : Z) (w : server) :
  0 <= fd < SOCKET_MAX ->
  exists w1, _addSocket fd w = (true, w1) /\
    readSet w1 = {[fd]} ∪ readSet w /\ writeSet w1 = writeSet w /\
    highestSocket w1 = Z.max (highestSocket w) fd /\
    sockets w1 fd = mkSock emptyBuf emptyBuf true false /\
    (forall i, i <> fd -> sockets w1 i = sockets w i) /\
    closed w1 = closed w /\ events w1 = events w /\ callbackSet w1 = callbackSet w /\
    kernel w1 = kernel w.
Proof.
  intros Hv. unfold _addSocket.
  replace (_isValidSocket fd) with true by (symmetry; apply isValidSocket_spec; exact Hv).
  eexists. split; [reflexivity|].
  destruct (highestSocket w <? fd) eqn:E;
    unfold set_highest, set_readSet, upd_sock, set_sockets; simpl; rewrite E; simpl.
  - apply Z.ltb_lt in E. rewrite Z.eqb_refl.
    repeat split; try reflexivity; [lia|].
    intros i Hi. destruct (Z.eqb_spec i fd); [contradiction | reflexivity].
  - apply Z.ltb_ge in E. rewrite Z.eqb_refl.
    repeat split; try reflexivity; [lia|].
    intros i Hi. destruct (Z.eqb_spec i fd); [contradiction | reflexivity].
Qed.

(** Handler actions that only operate on the context's buffers. *)
Definition buf_only (a : action) : Prop :=
  match a with
  | ActIBuf _ | ActOBuf _ => True
  | _ => False
  end.

(** Two states with the same registry apart from buffer contents. *)
Definition same_registry (w w' : server) : Prop :=
  readSet w' = readSet w /\ writeSet w' = writeSet w /\ highestSocket w' = highestSocket w /\
  closed w' = closed w /\ callbackSet w' = callbackSet w /\
  (forall i, keepAlive (sockets w' i) = keepAlive (sockets w i) /\
             isServer (sockets w' i) = isServer (sockets w i)).

Lemma runAction_buf_only (alloc : bufAlloc_t) (ctx : eventContext_t) (w : server) (a : action) :
  buf_only a -> same_registry w (runAction alloc ctx w a).
Proof.
  intros Hb. destruct a as [op|op|fd|fd]; simpl in Hb; try contradiction; simpl;
    (destruct (ctxBufs ctx); simpl;
      [repeat split; try reflexivity; rewrite upd_sock_at;
       match goal with i : Z |- _ => destruct (Z.eqb_spec i (cFd ctx)); [subst|]; reflexivity end
      | repeat split; reflexivity]).
Qed.

Lemma invokeCallback_buf_only (alloc : bufAlloc_t) (handler : eventContext_t -> server -> list action)
    (ev : event_t) (s c : Z) (bufs : bool) (w : server) :
  (forall w0, Forall buf_only (handler (mkCtx ev s c bufs) w0)) ->
  same_registry w (_invokeCallback alloc handler ev s c bufs w).
Proof.
  intros Hh. unfold _invokeCallback. destruct (callbackSet w); [|repeat split; reflexivity].
  apply (fold_left_preserve (same_registry w)).
  - intros x a Ha (H1 & H2 & H3 & H4 & H5 & H6).
    pose proof (proj1 (Stdlib.Lists.List.Forall_forall _ _) (Hh _) a Ha) as Hb.
    destruct (runAction_buf_only alloc (mkCtx ev s c bufs) x a Hb) as (G1 & G2 & G3 & G4 & G5 & G6).
    repeat split; try congruence;
      match goal with i : Z |- _ => destruct (G6 i), (H6 i); congruence end.
  - repeat split; reflexivity.
Qed.

(** ** Removal, accept and registration *)

(** [_removeSocket] records exactly one CLOSE event when a callback is
    installed, naming the descriptor as [sFd] for a listening socket and
    as [cFd] for a client, with no buffers, and records none otherwise;
    afterwards the descriptor is in neither interest set, its record is
    zeroed, and it is the last descriptor passed to [socketClose]. *)
Theorem removeSocket_close_event (alloc : bufAlloc_t)
    (handler : eventContext_t -> server -> list action) (fd : Z) (w : server) :
  let w' := _removeSocket alloc handler fd w in
  events w' = events w ++ (if callbackSet w then
                 [if isServer (sockets w fd) then mkCtx EVENT_SOCKET_CLOSE fd INVALID_SOCKET false
                  else mkCtx EVENT_SOCKET_CLOSE INVALID_SOCKET fd false]
               else []) /\
  (fd ∉ readSet w') /\ (fd ∉ writeSet w') /\ sockets w' fd = zeroSock /\
  last (closed w') = Some fd.
Proof.
  destruct (removeSocket_meta alloc handler fd w) as (H1 & _ & H3).
  destruct (removeSocket_gone alloc handler fd w) as (G1 & G2 & G3).
  split; [exact H1|]. split; [exact G1|]. split; [exact G2|]. split; [exact G3 | exact H3].
Qed.

(** The failure paths of [_handleServerInput]: an [accept] error other
    than EAGAIN removes and closes the listening socket itself (with a
    CLOSE event naming it as [sFd]); an accepted descriptor outside the
    table ([>= SOCKET_MAX]) is closed and nothing else happens. *)
Theorem handleServerInput_failures (alloc : bufAlloc_t)
    (handler : eventContext_t -> server -> list action) (sfd : Z) (w : server) :
  isServer (sockets w sfd) = true ->
  (let w' := _handleServerInput alloc handler AcceptError sfd w in
   (sfd ∉ readSet w') /\ (sfd ∉ writeSet w') /\ sockets w' sfd = zeroSock /\
   last (closed w') = Some sfd /\
   events w' = events w ++ (if callbackSet w
                            then [mkCtx EVENT_SOCKET_CLOSE sfd INVALID_SOCKET false] else [])) /\
  (forall n, SOCKET_MAX <= n ->
     _handleServerInput alloc handler (AcceptOk n) sfd w = socketClose n w).
Proof.
  intros Hs. split.
  - change (_handleServerInput alloc handler AcceptError sfd w) with (_removeSocket alloc handler sfd w).
    destruct (removeSocket_meta alloc handler sfd w) as (H1 & _ & H3).
    destruct (removeSocket_gone alloc handler sfd w) as (G1 & G2 & G3).
    rewrite Hs in H1.
    split; [exact G1|]. split; [exact G2|]. split; [exact G3|]. split; [exact H3 | exact H1].
  - intros n Hn. unfold _handleServerInput, socketAccept.
    replace (0 <=? n) with true by (symmetry; apply Z.leb_le; unfold SOCKET_MAX in Hn; lia).
    unfold _addSocket.
    replace (_isValidSocket n) with false.
    + simpl. replace (0 <=? n) with true by (symmetry; apply Z.leb_le; unfold SOCKET_MAX in Hn; lia).
      reflexivity.
    + symmetry. destruct (_isValidSocket n) eqn:E; [|reflexivity].
      apply isValidSocket_spec in E. lia.
Qed.

(** A listening socket 5 next to client state. *)
Definition listening5 : server :=
  mkServer (fun i => if Z.eqb i 5 then mkSock emptyBuf emptyBuf true true else zeroSock)
    {[5]} ∅ 5 true (fun _ => mkKsock [] false) [] [].

Lemma handleServerInput_failures_witness :
  isServer (sockets listening5 5) = true /\
  events (_handleServerInput okAlloc (fun _ _ => []) AcceptError 5 listening5) =
    [mkCtx EVENT_SOCKET_CLOSE 5 INVALID_SOCKET false].
Proof.
  split; [reflexivity|].
  destruct (handleServerInput_failures okAlloc (fun _ _ => []) 5 listening5 eq_refl)
    as ((_ & _ & _ & _ & H) & _).
  exact H.
Defined.

(** A connection accepted on a descriptor of the table is registered as
    a keep-alive client: it joins the read set, [_highestSocket] becomes
    the maximum, nothing is closed, one ACCEPT event naming [sFd] and
    [cFd] is recorded when a callback is installed, and write interest
    is enabled when the handler left output (it only works on the
    buffers). *)
Theorem handleServerInput_registers_client (alloc : bufAlloc_t)
    (handler : eventContext_t -> server -> list action) (sfd c : Z) (w : server) :
  0 <= c < SOCKET_MAX ->
  (forall w0, Forall buf_only (handler (mkCtx EVENT_SOCKET_ACCEPT sfd c true) w0)) ->
  let w' := _handleServerInput alloc handler (AcceptOk c) sfd w in
  readSet w' = {[c]} ∪ readSet w /\
  highestSocket w' = Z.max (highestSocket w) c /\
  keepAlive (sockets w' c) = true /\ isServer (sockets w' c) = false /\
  closed w' = closed w /\
  events w' = events w ++ (if callbackSet w then [mkCtx EVENT_SOCKET_ACCEPT sfd c true] else []) /\
  (writeSet w' = writeSet w \/ writeSet w' = {[c]} ∪ writeSet w) /\
  (bufHasData (oBuf (sockets w' c)) = true -> c ∈ writeSet w').
Proof.
  intros Hv Hh. unfold _handleServerInput, socketAccept.
  assert (Hc : (0 <=? c) = true) by (apply Z.leb_le; lia).
  rewrite Hc. cbv beta iota zeta. rewrite Hc.
  destruct (addSocket_valid c w Hv) as (w1 & -> & R1 & R2 & R3 & R4 & _ & R6 & R7 & R8 & _).
  destruct (invokeCallback_buf_only alloc handler EVENT_SOCKET_ACCEPT sfd c true w1 Hh)
    as (S1 & S2 & S3 & S4 & S5 & S6).
  destruct (invokeCallback_meta alloc handler EVENT_SOCKET_ACCEPT sfd c true w1) as [E1 _].
  set (w2 := _invokeCallback alloc handler EVENT_SOCKET_ACCEPT sfd c true w1) in *.
  destruct (S6 c) as [K1 K2]. rewrite R4 in K1, K2. simpl in K1, K2.
  rewrite R7, R8 in E1.
  unfold _checkClientSocket.
  destruct (bufHasData (oBuf (sockets w2 c))) eqn:Ed; simpl.
  - split; [congruence|]. split; [congruence|]. split; [exact K1|]. split; [exact K2|].
    split; [congruence|]. split; [exact E1|]. split.
    + right. rewrite S2, R2. reflexivity.
    + intros _. set_solver.
  - rewrite K1. simpl.
    split; [congruence|]. split; [congruence|]. split; [exact K1|]. split; [exact K2|].
    split; [congruence|]. split; [exact E1|]. split.
    + left. congruence.
    + intros H. congruence.
Qed.

Lemma handleServerInput_registers_client_witness :
  6 ∈ readSet (_handleServerInput okAlloc (fun _ _ => []) (AcceptOk 6) 5 listening5).
Proof.
  destruct (handleServerInput_registers_client okAlloc (fun _ _ => []) 5 6 listening5
              ltac:(unfold SOCKET_MAX; lia) (fun _ => List.Forall_nil _)) as (H & _).
  rewrite H. set_solver.
Defined.

(** [serverAddServerSocket] registers a descriptor of the table as a
    listening socket (fresh buffers, keep-alive, server role) and
    returns it, leaving the write set, the other records and the closed
    descriptors alone; a descriptor beyond the table is closed and
    INVALID_SOCKET returned with nothing else changed; a negative one
    (a failed [socketOpenServer]) changes nothing. *)
Theorem serverAddServerSocket_cases (fd : Z) (w : server) :
  (0 <= fd < SOCKET_MAX ->
     let '(r, w') := serverAddServerSocket fd w in
     r = fd /\ readSet w' = {[fd]} ∪ readSet w /\ writeSet w' = writeSet w /\
     highestSocket w' = Z.max (highestSocket w) fd /\
     sockets w' fd = mkSock emptyBuf emptyBuf true true /\
     (forall i, i <> fd -> sockets w' i = sockets w i) /\ closed w' = closed w) /\
  (SOCKET_MAX <= fd -> serverAddServerSocket fd w = (INVALID_SOCKET, socketClose fd w)) /\
  (fd < 0 -> serverAddServerSocket fd w = (INVALID_SOCKET, w)).
Proof.
  split; [|split].
  - intros Hv. unfold serverAddServerSocket.
    destruct (addSocket_valid fd w Hv) as (w1 & -> & R1 & R2 & R3 & R4 & R5 & R6 & _).
    simpl. rewrite Z.eqb_refl, R4. simpl.
    split; [reflexivity|]. split; [exact R1|]. split; [exact R2|]. split; [exact R3|].
    split; [reflexivity|]. split; [|exact R6].
    intros i Hi. destruct (Z.eqb_spec i fd); [contradiction | apply R5; exact Hi].
  - intros Hn. unfold serverAddServerSocket, _addSocket.
    replace (_isValidSocket fd) with false
      by (symmetry; destruct (_isValidSocket fd) eqn:E; [apply isValidSocket_spec in E; lia | reflexivity]).
    replace (0 <=? fd) with true by (symmetry; apply Z.leb_le; unfold SOCKET_MAX in Hn; lia).
    reflexivity.
  - intros Hn. unfold serverAddServerSocket, _addSocket.
    replace (_isValidSocket fd) with false
      by (symmetry; destruct (_isValidSocket fd) eqn:E; [apply isValidSocket_spec in E; lia | reflexivity]).
    replace (0 <=? fd) with false by (symmetry; apply Z.leb_gt; lia).
    reflexivity.
Qed.

Lemma serverAddServerSocket_cases_witness :
  serverAddServerSocket 2000 initServer = (INVALID_SOCKET, socketClose 2000 initServer) /\
  fst (serverAddServerSocket 3 initServer) = 3.
Proof.
  split.
  - apply (proj1 (proj2 (serverAddServerSocket_cases 2000 initServer))). unfold SOCKET_MAX. lia.
  - pose proof (proj1 (serverAddServerSocket_cases 3 initServer) ltac:(unfold SOCKET_MAX; lia)) as H.
    destruct (serverAddServerSocket 3 initServer) as [r w']. simpl. apply H.
Defined.

(** [serverCloseSocket] on a registered client with no pending output
    enables write interest, and the output step that follows (whatever
    [send] would answer) destroys and closes the client, as long as the
    Write handler adds no output. *)
Theorem closeSocket_then_write_removes (alloc : bufAlloc_t)
    (handler : eventContext_t -> server -> list action) (r c : Z) (w : server) :
  0 <= c < SOCKET_MAX -> isServer (sockets w c) = false ->
  bufHasData (oBuf (sockets w c)) = false ->
  (forall w0, Forall (adds_no_output c) (handler (writeCtx c) w0)) ->
  let w1 := serverCloseSocket c w in
  c ∈ writeSet w1 /\
  let w2 := _handleOutput alloc handler r c w1 in
  (c ∉ readSet w2) /\ (c ∉ writeSet w2) /\ last (closed w2) = Some c.
Proof.
  intros Hv Hs Hd Hh. unfold serverCloseSocket.
  replace (_isValidSocket c) with true by (symmetry; apply isValidSocket_spec; exact Hv).
  rewrite Hs. cbn [andb negb].
  set (s0 := mkSock (iBuf (sockets w c)) (oBuf (sockets w c)) false false).
  set (w1 := _enableSocketWrite c (upd_sock w c s0)).
  assert (Hw1 : sockets w1 c = s0) by (unfold w1; simpl; rewrite Z.eqb_refl; reflexivity).
  split; [unfold w1, _enableSocketWrite; simpl; set_solver|].
  unfold _handleOutput. rewrite Hw1. unfold socketWrite. cbn [oBuf s0]. rewrite Hd.
  cbv beta iota zeta.
  set (w1' := upd_sock w1 c _).
  assert (Hk : bufHasData (oBuf (sockets w1' c)) = false /\ keepAlive (sockets w1' c) = false)
    by (unfold w1'; rewrite upd_sock_at, Z.eqb_refl; simpl; auto).
  destruct (invokeCallback_adds_no_output alloc handler c EVENT_SOCKET_WRITE INVALID_SOCKET c true
              w1' Hh (proj1 Hk) (proj2 Hk)) as [H1 H2].
  rewrite H1. cbn [negb].
  set (w2 := _invokeCallback alloc handler _ _ _ _ w1') in *.
  change (sockets (_disableSocketWrite c w2) c) with (sockets w2 c). rewrite H2. cbn [negb].
  destruct (removeSocket_gone alloc handler c (_disableSocketWrite c w2)) as (G1 & G2 & _).
  split; [exact G1|]. split; [exact G2|]. apply removeSocket_last_closed.
Qed.

Lemma closeSocket_then_write_removes_witness :
  5 ∉ readSet (_handleOutput okAlloc (fun _ _ => []) 0 5 (serverCloseSocket 5 oneClient)).
Proof.
  destruct (closeSocket_then_write_removes okAlloc (fun _ _ => []) 0 5 oneClient
              ltac:(unfold SOCKET_MAX; lia) eq_refl eq_refl (fun _ => List.Forall_nil _))
    as (_ & H & _).
  exact H.
Defined.

(** ** Stopping the server *)

(** Handler actions that do not register a listening socket. *)
Definition no_add (a : action) : Prop :=
  match a with
  | ActAddServerSocket _ => False
  | _ => True
  end.

Lemma runAction_no_add (alloc : bufAlloc_t) (ctx : eventContext_t) (w : server) (a : action) :
  no_add a ->
  readSet (runAction alloc ctx w a) = readSet w /\ closed (runAction alloc ctx w a) = closed w /\
  highestSocket (runAction alloc ctx w a) = highestSocket w.
Proof.
  intros Hn. destruct a as [op|op|fd|fd]; simpl in Hn; try contradiction; simpl.
  - destruct (ctxBufs ctx); simpl; auto.
  - destruct (ctxBufs ctx); simpl; auto.
  - destruct (serverCloseSocket_meta fd w) as (_ & _ & H3 & H4).
    split; [apply serverCloseSocket_sets|]. auto.
Qed.

Lemma invokeCallback_no_add (alloc : bufAlloc_t) (handler : eventContext_t -> server -> list action)
    (ev : event_t) (s c : Z) (bufs : bool) (w : server) :
  (forall w0, Forall no_add (handler (mkCtx ev s c bufs) w0)) ->
  readSet (_invokeCallback alloc handler ev s c bufs w) = readSet w /\
  closed (_invokeCallback alloc handler ev s c bufs w) = closed w /\
  highestSocket (_invokeCallback alloc handler ev s c bufs w) = highestSocket w.
Proof.
  intros Hh. unfold _invokeCallback. destruct (callbackSet w); [|auto].
  apply (fold_left_preserve (fun x => readSet x = readSet w /\ closed x = closed w /\
                                      highestSocket x = highestSocket w)).
  - intros x a Ha (H1 & H2 & H3).
    pose proof (proj1 (Stdlib.Lists.List.Forall_forall _ _) (Hh _) a Ha) as Hb.
    destruct (runAction_no_add alloc (mkCtx ev s c bufs) x a Hb) as (G1 & G2 & G3).
    split; [congruence|]. split; congruence.
  - simpl. auto.
Qed.

Lemma removeSocket_no_add (alloc : bufAlloc_t) (handler : eventContext_t -> server -> list action)
    (fd : Z) (w : server) :
  (forall ctx w0, Forall no_add (handler ctx w0)) ->
  readSet (_removeSocket alloc handler fd w) = readSet w ∖ {[fd]} /\
  closed (_removeSocket alloc handler fd w) = closed w ++ [fd].
Proof.
  intros Hh. unfold _removeSocket.
  set (w1 := if isServer (sockets w fd) then _ else _).
  assert (H1 : readSet w1 = readSet w /\ closed w1 = closed w).
  { unfold w1. destruct (isServer _);
      (edestruct invokeCallback_no_add as (G1 & G2 & _); [intros; apply Hh|]; split; [exact G1 | exact G2]). }
  destruct H1 as [H1 H2].
  destruct (Z.eqb fd _); simpl; rewrite H1, H2; auto.
Qed.

Lemma removeAllLoop_closes (alloc : bufAlloc_t) (handler : eventContext_t -> server -> list action) :
  (forall ctx w0, Forall no_add (handler ctx w0)) ->
  forall n fd w, hinv w -> 0 <= fd -> (forall i, i ∈ readSet w -> fd <= i) ->
  (Z.to_nat SOCKET_MAX + 1 <= n + Z.to_nat fd)%nat ->
  let w' := removeAllLoop alloc handler n fd w in
  readSet w' = ∅ /\ hinv w' /\
  (forall i, i ∈ readSet w -> In i (closed w')) /\
  (forall i, In i (closed w) -> In i (closed w')) /\
  callbackSet w' = callbackSet w.
Proof.
  intros Hh n. induction n as [|n IH]; intros fd w Hi Hfd Hge Hn; simpl.
  - assert (E : readSet w = ∅).
    { apply set_eq. intros i. split; [|set_solver]. intros Hin.
      destruct Hi as [Hr _]. specialize (Hr i Hin). specialize (Hge i Hin). lia. }
    split; [exact E|]. split; [exact Hi|]. split; [|auto].
    intros i Hin. rewrite E in Hin. set_solver.
  - destruct (fd <=? highestSocket w) eqn:Eh.
    + set (w1 := if bool_decide (fd ∈ readSet w) then _ else w).
      assert (H1 : hinv w1 /\ (forall i, i ∈ readSet w1 <-> i ∈ readSet w /\ i <> fd) /\
                   (forall i, In i (closed w) -> In i (closed w1)) /\
                   (fd ∈ readSet w -> In fd (closed w1)) /\ callbackSet w1 = callbackSet w).
      { unfold w1. destruct (bool_decide_reflect (fd ∈ readSet w)) as [Hin|Hin].
        - destruct (removeSocket_no_add alloc handler fd w Hh) as [G1 G2].
          destruct (removeSocket_meta alloc handler fd w) as (_ & G3 & _).
          split; [apply hinv_removeSocket; exact Hi|].
          split; [intros i; rewrite G1; set_solver|].
          split; [intros i Hc; rewrite G2; apply in_or_app; left; exact Hc|].
          split; [intros _; rewrite G2; apply in_or_app; right; left; reflexivity | exact G3].
        - split; [exact Hi|]. split; [intros i; split; [intros H; split; [exact H|]; intros ->; contradiction | tauto]|].
          split; [auto|]. split; [contradiction | reflexivity]. }
      destruct H1 as (H1 & H2 & H3 & H4 & H5).
      destruct (IH (fd + 1) w1 H1 ltac:(lia)) as (R1 & R2 & R3 & R4 & R5).
      * intros i Hin. apply H2 in Hin. destruct Hin as [Hin Hne]. specialize (Hge i Hin). lia.
      * rewrite Z2Nat.inj_add by lia. change (Z.to_nat 1) with 1%nat. lia.
      * split; [exact R1|]. split; [exact R2|].
        split; [|split; [intros i Hc; apply R4, H3, Hc | congruence]].
        intros i Hin. destruct (Z.eq_dec i fd) as [->|Hne].
        -- apply R4, H4, Hin.
        -- apply R3, H2. auto.
    + apply Z.leb_gt in Eh.
      assert (E : readSet w = ∅).
      { destruct Hi as [_ [[_ Ho] | [Ho _]]]; [exact Ho|].
        specialize (Hge _ Ho). lia. }
      split; [exact E|]. split; [exact Hi|]. split; [|auto].
      intros i Hin. rewrite E in Hin. set_solver.
Qed.

Lemma server379_hinv : hinv server379.
Proof.
  unfold server379. apply hinv_addSocket, hinv_addSocket, hinv_addSocket, hinv_prepare.
Qed.

(** [serverStop] on a consistent registry, with a handler that adds no
    listening socket during the CLOSE and STOP events: every registered
    descriptor is removed and passed to [socketClose], the read set ends
    empty with [_highestSocket] at INVALID_SOCKET, and the STOP event is
    the last one recorded when a callback is installed. *)
Theorem serverStop_closes_all (alloc : bufAlloc_t)
    (handler : eventContext_t -> server -> list action) (w : server) :
  hinv w -> (forall ctx w0, Forall no_add (handler ctx w0)) ->
  let w' := serverStop alloc handler w in
  readSet w' = ∅ /\ highestSocket w' = INVALID_SOCKET /\
  (forall i, i ∈ readSet w -> In i (closed w')) /\
  (callbackSet w = true ->
     last (events w') = Some (mkCtx EVENT_STOP INVALID_SOCKET INVALID_SOCKET false)).
Proof.
  intros Hi Hh. unfold serverStop, _removeAllSockets.
  pose proof (removeAllLoop_closes alloc handler Hh (Z.to_nat SOCKET_MAX + 1) 0 w Hi
              ltac:(lia) ltac:(intros i Hin; apply (proj1 Hi) in Hin; lia)
              ltac:(change (Z.to_nat 0) with 0%nat; lia)) as HL.
  revert HL. generalize (removeAllLoop alloc handler (Z.to_nat SOCKET_MAX + 1) 0 w) as w1.
  intros w1 HL. cbv zeta in HL. destruct HL as (R1 & R2 & R3 & _ & R5).
  destruct (invokeCallback_no_add alloc handler EVENT_STOP INVALID_SOCKET INVALID_SOCKET false w1
              (fun w0 => Hh _ w0)) as (G1 & G2 & G3).
  destruct (invokeCallback_meta alloc handler EVENT_STOP INVALID_SOCKET INVALID_SOCKET false w1)
    as [E1 _].
  split; [congruence|].
  split.
  - rewrite G3. destruct R2 as [_ [[Ho _] | [Ho _]]]; [exact Ho|]. rewrite R1 in Ho. set_solver.
  - split; [intros i Hin; rewrite G2; apply R3, Hin|].
    intros Hc. rewrite E1, R5, Hc. apply last_snoc.
Qed.

Lemma serverStop_closes_all_witness :
  In 7 (closed (serverStop okAlloc (fun _ _ => []) (serverSetCallback true server379))).
Proof.
  destruct (serverStop_closes_all okAlloc (fun _ _ => []) (serverSetCallback true server379)
              (hinv_ext _ _ eq_refl eq_refl server379_hinv) (fun _ _ => List.Forall_nil _))
    as (_ & _ & H & _).
  apply H. change (7 ∈ readSet server379).
  assert (E : readSet server379 = {[3; 7; 9]}) by (vm_compute; reflexivity).
  rewrite E. set_solver.
Defined.

(** ** Without a callback *)

(** A step that records no event and keeps the callback unset. *)
Definition quiet (f : server -> server) : Prop :=
  forall w, callbackSet w = false -> events (f w) = events w /\ callbackSet (f w) = false.

Lemma quiet_compose (f g : server -> server) : quiet f -> quiet g -> quiet (fun w => g (f w)).
Proof. intros Hf Hg w Hw. destruct (Hf w Hw) as [F1 F2]. destruct (Hg _ F2) as [G1 G2]. split; congruence. Qed.

Lemma quiet_invokeCallback (alloc : bufAlloc_t) (handler : eventContext_t -> server -> list action)
    (ev : event_t) (s c : Z) (bufs : bool) :
  quiet (_invokeCallback alloc handler ev s c bufs).
Proof. intros w Hw. unfold _invokeCallback. rewrite Hw. auto. Qed.

Lemma quiet_removeSocket (alloc : bufAlloc_t) (handler : eventContext_t -> server -> list action)
    (fd : Z) : quiet (_removeSocket alloc handler fd).
Proof.
  intros w Hw. destruct (removeSocket_meta alloc handler fd w) as (H1 & H2 & _).
  rewrite Hw, app_nil_r in H1. rewrite Hw in H2. auto.
Qed.

Lemma quiet_checkClientSocket (alloc : bufAlloc_t) (handler : eventContext_t -> server -> list action)
    (c : Z) : quiet (_checkClientSocket alloc handler c).
Proof.
  intros w Hw. unfold _checkClientSocket.
  destruct (bufHasData _); [simpl; auto|].
  destruct (negb _); [apply quiet_removeSocket; exact Hw | auto].
Qed.

Lemma quiet_handleInput (alloc : bufAlloc_t) (handler : eventContext_t -> server -> list action)
    (r : accept_res) (fd : Z) : quiet (_handleInput alloc handler r fd).
Proof.
  intros w Hw. unfold _handleInput. destruct (isServer _).
  - unfold _handleServerInput. destruct (0 <=? socketAccept r); [|apply quiet_removeSocket; exact Hw].
    pose proof (addSocket_meta (socketAccept r) w) as (A1 & A2 & _).
    destruct (_addSocket (socketAccept r) w) as [ok w1]. simpl in A1, A2.
    destruct ok; [|simpl; split; congruence].
    assert (Hw1 : callbackSet w1 = false) by congruence.
    destruct (quiet_compose _ _ (quiet_invokeCallback alloc handler EVENT_SOCKET_ACCEPT fd (socketAccept r) true)
                (quiet_checkClientSocket alloc handler (socketAccept r)) w1 Hw1) as [G1 G2].
    split; congruence.
  - unfold _handleClientInput.
    destruct (socketRead alloc (kernel w fd) (iBuf (sockets w fd))) as [[ok k'] ib].
    set (w1 := upd_sock _ fd _).
    assert (Hw1 : callbackSet w1 = false /\ events w1 = events w) by (simpl; auto).
    destruct Hw1 as [Hw1 Ew1].
    destruct ok.
    + destruct (quiet_compose _ _ (quiet_invokeCallback alloc handler EVENT_SOCKET_READ INVALID_SOCKET fd true)
                  (quiet_checkClientSocket alloc handler fd) w1 Hw1) as [G1 G2].
      split; congruence.
    + destruct (quiet_removeSocket alloc handler fd w1 Hw1) as [G1 G2]. split; congruence.
Qed.

Lemma quiet_handleOutput (alloc : bufAlloc_t) (handler : eventContext_t -> server -> list action)
    (r c : Z) : quiet (_handleOutput alloc handler r c).
Proof.
  intros w Hw. unfold _handleOutput.
  destruct (socketWrite alloc r (oBuf (sockets w c))) as [ok ob].
  set (w1 := upd_sock w c _).
  assert (Hw1 : callbackSet w1 = false /\ events w1 = events w) by (simpl; auto).
  destruct Hw1 as [Hw1 Ew1].
  destruct ok; [|destruct (quiet_removeSocket alloc handler c w1 Hw1) as [G1 G2]; split; congruence].
  destruct (quiet_invokeCallback alloc handler EVENT_SOCKET_WRITE INVALID_SOCKET c true w1 Hw1) as [I1 I2].
  set (w2 := _invokeCallback alloc handler _ _ _ _ w1) in *.
  destruct (negb _); [|split; congruence].
  destruct (negb _); [|simpl; split; congruence].
  destruct (quiet_removeSocket alloc handler c (_disableSocketWrite c w2) I2) as [G1 G2].
  change (events (_disableSocketWrite c w2)) with (events w2) in G1. split; congruence.
Qed.

Lemma quiet_execLoop (alloc : bufAlloc_t) (handler : eventContext_t -> server -> list action)
    (o : exec_oracle) (n : nat) :
  forall fd rs ws, quiet (execLoop alloc handler o n fd rs ws).
Proof.
  induction n as [|n IH]; intros fd rs ws w Hw; simpl; [auto|].
  destruct (fd <=? highestSocket w); [|auto].
  set (w1 := if bool_decide (fd ∈ rs) then _ else w).
  assert (H1 : events w1 = events w /\ callbackSet w1 = false)
    by (unfold w1; destruct (bool_decide (fd ∈ rs)); [apply quiet_handleInput; exact Hw | auto]).
  destruct H1 as [E1 H1].
  set (w2 := if bool_decide (fd ∈ ws) then _ else w1).
  assert (H2 : events w2 = events w1 /\ callbackSet w2 = false)
    by (unfold w2; destruct (bool_decide (fd ∈ ws)); [apply quiet_handleOutput; exact H1 | auto]).
  destruct H2 as [E2 H2].
  destruct (IH (fd + 1) rs ws w2 H2) as [G1 G2]. split; congruence.
Qed.

Lemma quiet_serverExec (alloc : bufAlloc_t) (handler : eventContext_t -> server -> list action)
    (o : exec_oracle) : quiet (fun w => snd (serverExec alloc handler o w)).
Proof.
  intros w Hw. unfold serverExec. destruct (highestSocket w <? 0); [split; [reflexivity | exact Hw]|].
  destruct (o_select o).
  - apply quiet_execLoop. exact Hw.
  - apply quiet_invokeCallback. exact Hw.
  - split; [reflexivity | exact Hw].
  - split; [reflexivity | exact Hw].
Qed.

Lemma quiet_removeAllLoop (alloc : bufAlloc_t) (handler : eventContext_t -> server -> list action)
    (n : nat) : forall fd, quiet (removeAllLoop alloc handler n fd).
Proof.
  induction n as [|n IH]; intros fd w Hw; simpl; [auto|].
  destruct (fd <=? highestSocket w); [|auto].
  set (w1 := if bool_decide (fd ∈ readSet w) then _ else w).
  assert (H1 : events w1 = events w /\ callbackSet w1 = false)
    by (unfold w1; destruct (bool_decide _); [apply quiet_removeSocket; exact Hw | auto]).
  destruct H1 as [E1 H1].
  destruct (IH (fd + 1) w1 H1) as [G1 G2]. split; congruence.
Qed.

(** With [serverSetCallback(NULL)] nothing is ever reported: starting,
    any sequence of [serverExec] ticks (whatever the kernel answers) and
    stopping record no event, and the callback stays unset. *)
Theorem no_callback_no_events (alloc : bufAlloc_t)
    (handler : eventContext_t -> server -> list action) (os : list exec_oracle) (w : server) :
  let w' := serverStop alloc handler
              (fold_left (fun x o => snd (serverExec alloc handler o x)) os
                 (serverStart alloc handler (serverSetCallback false w))) in
  events w' = events w /\ callbackSet w' = false.
Proof.
  assert (Hq : quiet (fun x => fold_left (fun x o => snd (serverExec alloc handler o x)) os x)).
  { induction os as [|o os IH]; intros x Hx; cbn [fold_left]; [auto|].
    destruct (quiet_serverExec alloc handler o x Hx) as [G1 G2].
    destruct (IH _ G2) as [H1 H2]. split; congruence. }
  destruct (quiet_invokeCallback alloc handler EVENT_START INVALID_SOCKET INVALID_SOCKET false
              (serverSetCallback false w) eq_refl) as [S1 S2].
  unfold serverStart. set (w1 := _invokeCallback alloc handler _ _ _ _ (serverSetCallback false w)) in *.
  destruct (Hq w1 S2) as [F1 F2].
  set (w2 := fold_left _ os w1) in *.
  unfold serverStop, _removeAllSockets.
  destruct (quiet_removeAllLoop alloc handler (Z.to_nat SOCKET_MAX + 1) 0 w2 F2) as [R1 R2].
  revert R1 R2. generalize (removeAllLoop alloc handler (Z.to_nat SOCKET_MAX + 1) 0 w2) as w3.
  intros w3 R1 R2.
  destruct (quiet_invokeCallback alloc handler EVENT_STOP INVALID_SOCKET INVALID_SOCKET false w3 R2)
    as [T1 T2].
  split; [|exact T2]. rewrite T1, R1, F1, S1. reflexivity.
Qed.

(** * Further properties of the Lua provider *)

(** What the Lua functions [peek] and [extract] return on a buffer built
    by successful appends from empty: the concatenation of the appended
    strings, or nil when nothing was appended; [extract] leaves the
    buffer empty, so a second [extract] returns nil. *)
Theorem luaBuf_roundtrip (alloc : bufAlloc_t) (chunks : list (list Byte.byte)) (b : buf_t) :
  bufAppendAll alloc emptyBuf chunks = Some b ->
  let v := match concat chunks with [] => None | l => Some l end in
  _luaBufPeek b = v /\ _luaBufExtract b = (v, emptyBuf) /\
  _luaBufExtract (snd (_luaBufExtract b)) = (None, emptyBuf).
Proof.
  intros Ha. destruct (bufAppendAll_bytes alloc chunks emptyBuf b Ha) as [Hb Hl].
  cbn [bytes len emptyBuf app] in Hb, Hl. rewrite N.add_0_l in Hl.
  pose proof (bufAppendAll_inv alloc chunks emptyBuf b emptyBuf_inv Ha) as Hi.
  destruct (concat chunks) as [|x l] eqn:Ec.
  - assert (E : b = emptyBuf) by (apply buf_inv_len0; [exact Hi | rewrite Hl; reflexivity]).
    subst b. split; [reflexivity|]. split; reflexivity.
  - assert (Hd : bufHasData b = true).
    { unfold bufHasData. destruct Hi as (_ & _ & _ & H4). destruct (data b) eqn:Ed.
      - apply N.ltb_lt. rewrite Hl. simpl. lia.
      - exfalso. pose proof (proj1 H4 eq_refl) as H0. rewrite Hl in H0. simpl in H0. lia. }
    assert (Ht : take (N.to_nat (len b)) (bytes b) = x :: l)
      by (rewrite Hb, Hl, Nat2N.id; apply take_ge; lia).
    unfold _luaBufPeek, _luaBufExtract, bufPeek, bufExtract. rewrite Hd. rewrite Ht.
    split; [reflexivity|]. split; reflexivity.
Qed.

Lemma luaBuf_roundtrip_witness :
  bufAppendAll okAlloc emptyBuf [[Byte.x41]; [Byte.x42]] =
    Some (mkBuf (Some 4096) [Byte.x41; Byte.x42] 2 1024) /\
  _luaBufExtract (mkBuf (Some 4096) [Byte.x41; Byte.x42] 2 1024) =
    (Some [Byte.x41; Byte.x42], emptyBuf).
Proof.
  split; [vm_compute; reflexivity|].
  exact (proj1 (proj2 (luaBuf_roundtrip okAlloc [[Byte.x41]; [Byte.x42]]
                         (mkBuf (Some 4096) [Byte.x41; Byte.x42] 2 1024)
                         ltac:(vm_compute; reflexivity)))).
Defined.

Lemma runAction_keeps_client (alloc : bufAlloc_t) (c : Z) (ctx : eventContext_t) (w : server)
    (a : action) :
  adds_no_output c a ->
  bufHasData (oBuf (sockets w c)) = false -> isServer (sockets w c) = false ->
  bufHasData (oBuf (sockets (runAction alloc ctx w a) c)) = false /\
  isServer (sockets (runAction alloc ctx w a) c) = false.
Proof.
  intros Hk Ho Hs. destruct a as [op|op|fd|fd]; simpl.
  - destruct (ctxBufs ctx); simpl; [|auto].
    destruct (Z.eqb_spec c (cFd ctx)); subst; auto.
  - destruct (ctxBufs ctx); simpl; [|auto].
    destruct (Z.eqb_spec c (cFd ctx)); auto.
    subst. destruct op as [d| |]; simpl in Hk; try contradiction; simpl; auto.
  - destruct (serverCloseSocket_sock fd c w) as [-> | ->]; auto.
  - destruct (serverAddServerSocket_other fd c w Hk) as (H1 & _ & _). rewrite H1. auto.
Qed.

(** A Lua error in the READ handler of a client closes it: when the
    script raises after API calls that put no output in the client's
    buffer, the [serverCloseSocket(context->cFd)] that [_luaCallback]
    appends makes the [_checkClientSocket] that follows remove the
    client and close its descriptor. *)
Theorem luaCallback_error_closes (alloc : bufAlloc_t)
    (script : eventContext_t -> server -> list action * bool) (c : Z) (w : server) :
  0 <= c < SOCKET_MAX -> callbackSet w = true ->
  isServer (sockets w c) = false -> bufHasData (oBuf (sockets w c)) = false ->
  (forall w0, snd (script (mkCtx EVENT_SOCKET_READ INVALID_SOCKET c true) w0) = true /\
              Forall (adds_no_output c) (fst (script (mkCtx EVENT_SOCKET_READ INVALID_SOCKET c true) w0))) ->
  let h := _luaCallback script in
  let w' := _checkClientSocket alloc h c (_invokeCallback alloc h EVENT_SOCKET_READ INVALID_SOCKET c true w) in
  (c ∉ readSet w') /\ (c ∉ writeSet w') /\ last (closed w') = Some c.
Proof.
  intros Hv Hcb Hs Ho Hscr. unfold _invokeCallback. rewrite Hcb.
  set (ctx := mkCtx EVENT_SOCKET_READ INVALID_SOCKET c true).
  set (w1 := set_events w _).
  destruct (Hscr w1) as [Hf Hall]. fold ctx in Hf, Hall.
  assert (Hl : _luaCallback script ctx w1 = fst (script ctx w1) ++ [ActCloseSocket c]).
  { unfold _luaCallback. destruct (script ctx w1) as [acts failed]. simpl in Hf. subst failed.
    reflexivity. }
  rewrite Hl, fold_left_app. set (acts := fst (script ctx w1)) in *.
  assert (Hx : bufHasData (oBuf (sockets (fold_left (runAction alloc ctx) acts w1) c)) = false /\
               isServer (sockets (fold_left (runAction alloc ctx) acts w1) c) = false).
  { apply (fold_left_preserve (fun x => bufHasData (oBuf (sockets x c)) = false /\
                                        isServer (sockets x c) = false)).
    - intros x a Ha [Hx1 Hx2].
      pose proof (proj1 (Stdlib.Lists.List.Forall_forall _ _) Hall a Ha) as Ha'.
      apply runAction_keeps_client; auto.
    - simpl. auto. }
  set (x := fold_left (runAction alloc ctx) acts w1) in *.
  destruct Hx as [Hx1 Hx2]. cbn [fold_left runAction cFd ctx].
  unfold serverCloseSocket.
  replace (_isValidSocket c) with true by (symmetry; apply isValidSocket_spec; exact Hv).
  rewrite Hx2. cbn [andb negb].
  unfold _checkClientSocket.
  set (x1 := _enableSocketWrite c _).
  assert (Hc : sockets x1 c = mkSock (iBuf (sockets x c)) (oBuf (sockets x c)) false false)
    by (unfold x1; simpl; rewrite Z.eqb_refl; try rewrite Hx2; reflexivity).
  rewrite Hc. cbn [oBuf keepAlive]. rewrite Hx1. cbn [negb].
  destruct (removeSocket_gone alloc (_luaCallback script) c x1) as (G1 & G2 & _).
  split; [exact G1|]. split; [exact G2|]. apply removeSocket_last_closed.
Qed.

Lemma luaCallback_error_closes_witness :
  5 ∉ readSet (_checkClientSocket okAlloc (_luaCallback (fun _ _ => ([], true))) 5
                 (_invokeCallback okAlloc (_luaCallback (fun _ _ => ([], true)))
                    EVENT_SOCKET_READ INVALID_SOCKET 5 true (serverSetCallback true oneClient))).
Proof.
  destruct (luaCallback_error_closes okAlloc (fun _ _ => ([], true)) 5 (serverSetCallback true oneClient)
              ltac:(unfold SOCKET_MAX; lia) eq_refl eq_refl eq_refl
              (fun _ => conj eq_refl (List.Forall_nil _))) as (H & _).
  exact H.
Defined.

(** * Further properties of main.c *)

(** A signal is a restart request when [_prepareSignals] installs
    [_restartSignalHandler] for it. *)
Definition restartSignal (sg : signal_t) : bool :=
  match sg with
  | SIGUSR1 | SIGUSR2 => true
  | _ => false
  end.

(** After any sequence of the handled signals the exit code and the
    server state are untouched; once a signal arrives the server is no
    longer active, and whether it restarts is decided by the last
    signal alone: USR1/USR2 restart, TERM/INT/HUP do not. *)
Theorem signals_last_wins (m : mainState) (sigs : list signal_t) (sg : signal_t) :
  let m' := fold_left deliverSignal (sigs ++ [sg]) m in
  _active m' = false /\ _restart m' = restartSignal sg /\
  _exitCode m' = _exitCode m /\ mainServer m' = mainServer m.
Proof.
  assert (Hk : forall l m0, _exitCode (fold_left deliverSignal l m0) = _exitCode m0 /\
                            mainServer (fold_left deliverSignal l m0) = mainServer m0).
  { induction l as [|s l IH]; intros m0; cbn [fold_left]; [auto|].
    destruct (IH (deliverSignal m0 s)) as [H1 H2].
    rewrite H1, H2. destruct s; split; reflexivity. }
  rewrite fold_left_app. cbn [fold_left].
  destruct (Hk sigs m) as [H1 H2].
  destruct sg; simpl; repeat split; assumption.
Qed.

